(** * Scorgasmatron: the table tennis score keeper

    A shallow embedding of [table_tennis.hpp] (the match scoring engine
    with its bounded undo history) and of the debounced button and the
    multiplexed seven segment display of [avr_io.hpp], followed by the
    properties of the design document checked against them.

    Conventions.
    - [int] fields (scores, games won, the history index) are integers of
      [Z].  C++ leaves signed overflow undefined, so the embedding
      describes the runs in which no counter passes [INT_MAX]; division
      and remainder on [int] are the truncating [Z.quot] and [Z.rem].
    - [uint8_t] values are integers of [Z] in [0, 256); every place where
      the source can leave that range has its reduction modulo 256
      written out.
    - Arrays are lists read with [!!] and written with [<[i:=x]>]. *)

From stdpp Require Import base numbers list.

Local Open Scope Z_scope.

(* ================================================================= *)
(** ** table_tennis.hpp *)
(* ================================================================= *)

Module table_tennis.

(** [enum class game_mode]. *)
Inductive game_mode : Set := to_11 | to_21.

(** [enum class serve_player]. *)
Inductive serve_player : Set := p1 | p2.

#[global] Instance game_mode_eq_dec : EqDecision game_mode.
Proof. solve_decision. Defined.

#[global] Instance serve_player_eq_dec : EqDecision serve_player.
Proof. solve_decision. Defined.

(** [struct game_state], with its default member initialisers. *)
Module game_state.

Record t : Set := mk {
  p1_games_won : Z;
  p1_score : Z;
  p2_games_won : Z;
  p2_score : Z;
  first_serve : serve_player;
  mode : game_mode
}.

Definition initial : t := mk 0 0 0 0 p1 to_11.

Definition set_p1_games_won (v : Z) (s : t) : t :=
  mk v (p1_score s) (p2_games_won s) (p2_score s) (first_serve s) (mode s).

Definition set_p1_score (v : Z) (s : t) : t :=
  mk (p1_games_won s) v (p2_games_won s) (p2_score s) (first_serve s) (mode s).

Definition set_p2_games_won (v : Z) (s : t) : t :=
  mk (p1_games_won s) (p1_score s) v (p2_score s) (first_serve s) (mode s).

Definition set_p2_score (v : Z) (s : t) : t :=
  mk (p1_games_won s) (p1_score s) (p2_games_won s) v (first_serve s) (mode s).

Definition set_first_serve (v : serve_player) (s : t) : t :=
  mk (p1_games_won s) (p1_score s) (p2_games_won s) (p2_score s) v (mode s).

Definition set_mode (v : game_mode) (s : t) : t :=
  mk (p1_games_won s) (p1_score s) (p2_games_won s) (p2_score s) (first_serve s) v.

#[global] Instance eq_dec : EqDecision t.
Proof. solve_decision. Defined.

End game_state.

(** [static const int MAX_UNDO = 32]. *)
Definition MAX_UNDO : Z := 32.

(** The data members of [struct table_tennis]: the current state, the
    array [_history[MAX_UNDO]] and the index of its latest valid entry. *)
Record t : Type := mk {
  _state : game_state.t;
  _history : list game_state.t;
  _history_index : Z
}.

(** The object as [table_tennis tt;] leaves it. *)
Definition init : t :=
  mk game_state.initial (replicate (Z.to_nat MAX_UNDO) game_state.initial) (-1).

Definition with_state (s : game_state.t) (e : t) : t :=
  mk s (_history e) (_history_index e).

Definition get_p1_games_won (e : t) : Z := game_state.p1_games_won (_state e).
Definition get_p2_games_won (e : t) : Z := game_state.p2_games_won (_state e).
Definition get_p1_score (e : t) : Z := game_state.p1_score (_state e).
Definition get_p2_score (e : t) : Z := game_state.p2_score (_state e).

(** [bool deuce() const]. *)
Definition deuce (e : t) : bool :=
  let deuce_points :=
    if decide (game_state.mode (_state e) = to_11) then 10 else 20 in
  (get_p1_score e >=? deuce_points) && (get_p2_score e >=? deuce_points).

(** [serve_player serve() const]. *)
Definition serve (e : t) : serve_player :=
  let serve_interval :=
    if deuce e then 1
    else if decide (game_state.mode (_state e) = to_11) then 2 else 5 in
  let num_intervals :=
    Z.quot (get_p1_score e + get_p2_score e) serve_interval in
  if Z.rem num_intervals 2 =? 0 then
    (if decide (game_state.first_serve (_state e) = p1) then p1 else p2)
  else
    (if decide (game_state.first_serve (_state e) = p1) then p2 else p1).

(** One iteration [_history[i] = _history[i + 1]] of the loop of
    [save_state].  The array has [MAX_UNDO] cells and the loop stops at
    [MAX_UNDO - 2], so the read is always inside it; the [None] branch
    only makes the function total on shorter lists. *)
Definition shift_step (h : list game_state.t) (i : nat) : list game_state.t :=
  match h !! S i with
  | Some s => <[i := s]> h
  | None => h
  end.

(** [for (int i = 0; i < MAX_UNDO - 1; ++i) _history[i] = _history[i + 1];] *)
Definition shift_down (h : list game_state.t) : list game_state.t :=
  foldl shift_step h (seq 0 (Z.to_nat (MAX_UNDO - 1))).

(** [void save_state()]. *)
Definition save_state (e : t) : t :=
  let e1 :=
    if _history_index e =? MAX_UNDO - 1 then
      mk (_state e) (shift_down (_history e)) (_history_index e - 1)
    else e in
  let i := _history_index e1 + 1 in
  mk (_state e1) (<[Z.to_nat i := _state e1]> (_history e1)) i.

(** The two assignments made on a win. *)
Definition reset_scores (s : game_state.t) : game_state.t :=
  game_state.set_p1_score 0 (game_state.set_p2_score 0 s).

Definition p1_wins (e : t) : t :=
  let s := _state e in
  with_state
    (reset_scores (game_state.set_p1_games_won (game_state.p1_games_won s + 1) s)) e.

Definition p2_wins (e : t) : t :=
  let s := _state e in
  with_state
    (reset_scores (game_state.set_p2_games_won (game_state.p2_games_won s + 1) s)) e.

(** [void check_for_win()]. *)
Definition check_for_win (e : t) : t :=
  if deuce e then
    if get_p1_score e >=? get_p2_score e + 2 then p1_wins e
    else if get_p2_score e >=? get_p1_score e + 2 then p2_wins e
    else e
  else
    let win := if decide (game_state.mode (_state e) = to_11) then 11 else 21 in
    if get_p1_score e >=? win then p1_wins e
    else if get_p2_score e >=? win then p2_wins e
    else e.

(** [void p1_score()]. *)
Definition p1_score (e : t) : t :=
  let e1 := save_state e in
  let e2 :=
    with_state (game_state.set_p1_score (game_state.p1_score (_state e1) + 1) (_state e1)) e1 in
  check_for_win e2.

(** [void p2_score()]. *)
Definition p2_score (e : t) : t :=
  let e1 := save_state e in
  let e2 :=
    with_state (game_state.set_p2_score (game_state.p2_score (_state e1) + 1) (_state e1)) e1 in
  check_for_win e2.

(** [void undo()]: [_state = _history[_history_index--]].  The index of
    a constructed object stays below [MAX_UNDO] (lemma
    [reachable_wf]), so the read is inside the array; the fallback to
    the current state only makes the function total. *)
Definition undo (e : t) : t :=
  if _history_index e >=? 0 then
    mk (default (_state e) (_history e !! Z.to_nat (_history_index e)))
       (_history e) (_history_index e - 1)
  else e.

(** [void set_game_mode(game_mode mode)]. *)
Definition set_game_mode (m : game_mode) (e : t) : t :=
  if (get_p1_score e =? 0) && (get_p2_score e =? 0) then
    with_state (game_state.set_mode m (_state e)) e
  else e.

(** [void set_first_serve(serve_player first_serve_player)]. *)
Definition set_first_serve (first_serve_player : serve_player) (e : t) : t :=
  if (get_p1_score e =? 0) && (get_p2_score e =? 0) then
    with_state (game_state.set_first_serve first_serve_player (_state e)) e
  else e.

(** *** Calls made by a client *)

(** The design document's [score_point(player)]: [p1_score()] for
    player one, [p2_score()] for player two. *)
Definition score_point (x : serve_player) (e : t) : t :=
  match x with
  | p1 => p1_score e
  | p2 => p2_score e
  end.

(** The public member functions that change the object. *)
Inductive call : Set :=
  | call_p1_score
  | call_p2_score
  | call_undo
  | call_set_game_mode (m : game_mode)
  | call_set_first_serve (p : serve_player).

Definition exec (c : call) (e : t) : t :=
  match c with
  | call_p1_score => p1_score e
  | call_p2_score => p2_score e
  | call_undo => undo e
  | call_set_game_mode m => set_game_mode m e
  | call_set_first_serve p => set_first_serve p e
  end.

(** Calls made one after the other, the head of the list first. *)
Definition run (cs : list call) (e : t) : t := foldl (fun e c => exec c e) e cs.

(** The states a program can bring a freshly constructed object to. *)
Inductive reachable : t -> Prop :=
  | reachable_init : reachable init
  | reachable_exec c e : reachable e -> reachable (exec c e).

End table_tennis.

(* ================================================================= *)
(** ** avr_io.hpp *)
(* ================================================================= *)

(** The three I/O banks of the atmega328p, as [scorgasmatron.cpp]
    declares them. *)
Inductive avr_io_bank : Set := avr_io_bank_b | avr_io_bank_c | avr_io_bank_d.

(** What the board does, in the order in which the program asks for it:
    an output pin driven high or low, the busy wait [_delay_ms], and a
    read of [_digits[i]] past the end of that array (undefined
    behaviour in C++, recorded so that it stays visible). *)
Inductive event : Set :=
  | ev_set (bank : avr_io_bank) (bit : Z) (high : bool)
  | ev_delay_ms (ms : Z)
  | ev_digits_out_of_bounds (i : nat).

Definition trace : Set := list event.

(** [struct avr_digital_input_pin]: the configuration that [check]
    consults.  The level [read()] returns is an input of the model. *)
Record avr_digital_input_pin : Set := {
  input_bank : avr_io_bank;
  input_bit : Z;
  _pull_up : bool
}.

Definition pull_up (p : avr_digital_input_pin) : bool := _pull_up p.

(** [avr_digital_output_pin_interface] and its two implementations. *)
Inductive avr_digital_output_pin_interface : Set :=
  | avr_digital_output_pin_null
  | avr_digital_output_pin (bank : avr_io_bank) (bit : Z).

(** [virtual void set(bool high) const].  The null pin ignores the
    call; the real pin sets or clears its bit of the port register of
    its bank, which is the event [ev_set]. *)
Definition set (p : avr_digital_output_pin_interface) (high : bool) (w : trace) : trace :=
  match p with
  | avr_digital_output_pin_null => w
  | avr_digital_output_pin bank bit => w ++ [ev_set bank bit high]
  end.

(** [_delay_ms]. *)
Definition _delay_ms (ms : Z) (w : trace) : trace := w ++ [ev_delay_ms ms].

(** Conversion of an [int] to [uint8_t]. *)
Definition to_uint8 (x : Z) : Z := x mod 256.

(** Conversion to [uint32_t]. *)
Definition to_uint32 (x : Z) : Z := x mod 2 ^ 32.

(** *** The registers behind the pins *)

(** [struct avr_io_bank]: the bytes held by the three registers of a
    bank. *)
Module io_regs.

Record t : Set := mk { ddr : Z; port : Z; pin : Z }.

End io_regs.

(** The registers of the three banks of the board. *)
Record board : Set := {
  regs_b : io_regs.t;
  regs_c : io_regs.t;
  regs_d : io_regs.t
}.

Definition regs_of (bank : avr_io_bank) (bd : board) : io_regs.t :=
  match bank with
  | avr_io_bank_b => regs_b bd
  | avr_io_bank_c => regs_c bd
  | avr_io_bank_d => regs_d bd
  end.

Definition with_regs (bank : avr_io_bank) (r : io_regs.t) (bd : board) : board :=
  match bank with
  | avr_io_bank_b => {| regs_b := r; regs_c := regs_c bd; regs_d := regs_d bd |}
  | avr_io_bank_c => {| regs_b := regs_b bd; regs_c := r; regs_d := regs_d bd |}
  | avr_io_bank_d => {| regs_b := regs_b bd; regs_c := regs_c bd; regs_d := r |}
  end.

(** [_mask(1 << bit)], stored in a [uint8_t]. *)
Definition pin_mask (bit : Z) : Z := to_uint8 (Z.shiftl 1 bit).

(** The constructor of [avr_digital_input_pin]: [*_bank.ddr &= ~_mask],
    then [*_bank.port |= _mask] when the pull-up is asked for. *)
Definition avr_digital_input_pin_init (p : avr_digital_input_pin) (bd : board) : board :=
  let r := regs_of (input_bank p) bd in
  let mask := pin_mask (input_bit p) in
  let r1 :=
    io_regs.mk (to_uint8 (Z.land (io_regs.ddr r) (Z.lnot mask)))
               (io_regs.port r) (io_regs.pin r) in
  let r2 :=
    if _pull_up p then
      io_regs.mk (io_regs.ddr r1) (to_uint8 (Z.lor (io_regs.port r1) mask)) (io_regs.pin r1)
    else r1 in
  with_regs (input_bank p) r2 bd.

(** [bool read() const]: [*_bank.pin & _mask]. *)
Definition read (p : avr_digital_input_pin) (bd : board) : bool :=
  negb (Z.land (io_regs.pin (regs_of (input_bank p) bd)) (pin_mask (input_bit p)) =? 0).

(** The constructor of [avr_digital_output_pin]: [*_bank.ddr |= _mask]. *)
Definition avr_digital_output_pin_init (bank : avr_io_bank) (bit : Z) (bd : board) : board :=
  let r := regs_of bank bd in
  with_regs bank
    (io_regs.mk (to_uint8 (Z.lor (io_regs.ddr r) (pin_mask bit)))
                (io_regs.port r) (io_regs.pin r)) bd.

(** The body of [avr_digital_output_pin::set] on the registers:
    [*_bank.port |= _mask] or [*_bank.port &= ~_mask]. *)
Definition set_port (bank : avr_io_bank) (bit : Z) (high : bool) (bd : board) : board :=
  let r := regs_of bank bd in
  let mask := pin_mask bit in
  let port' :=
    if high then to_uint8 (Z.lor (io_regs.port r) mask)
    else to_uint8 (Z.land (io_regs.port r) (Z.lnot mask)) in
  with_regs bank (io_regs.mk (io_regs.ddr r) port' (io_regs.pin r)) bd.

(** What an event does to the registers. *)
Definition drive (ev : event) (bd : board) : board :=
  match ev with
  | ev_set bank bit high => set_port bank bit high bd
  | ev_delay_ms _ => bd
  | ev_digits_out_of_bounds _ => bd
  end.

(** The registers after the events of a trace, oldest first. *)
Definition replay (w : trace) (bd : board) : board :=
  foldl (fun bd ev => drive ev bd) bd w.

(** *** The debounced button *)

Module avr_button.

(** [enum class action]. *)
Inductive action : Set := none | pressed | released.

#[global] Instance action_eq_dec : EqDecision action.
Proof. solve_decision. Defined.

Record t : Set := mk {
  _input_pin : avr_digital_input_pin;
  _counter : Z;
  _states : list action;
  _current_action : action
}.

(** The object the constructor and the default member initialisers
    build. *)
Definition init (input_pin : avr_digital_input_pin) : t :=
  mk input_pin 0 [released; released; released] released.

(** [action check()].  [read] is what [_input_pin.read()] returns in
    this call. *)
Definition check (read : bool) (b : t) : t * action :=
  let sample :=
    if pull_up (_input_pin b) then (if read then released else pressed)
    else (if read then pressed else released) in
  let slot := Z.to_nat (Z.rem (_counter b) 3) in
  let b1 :=
    mk (_input_pin b) (to_uint8 (_counter b + 1))
       (<[slot := sample]> (_states b)) (_current_action b) in
  if decide (_states b1 !! 0%nat = _states b1 !! 1%nat
             /\ _states b1 !! 1%nat = _states b1 !! 2%nat) then
    let new_action := _states b1 !! 0%nat in
    if decide (new_action = Some pressed /\ _current_action b1 = released) then
      (mk (_input_pin b1) (_counter b1) (_states b1) pressed, pressed)
    else if decide (new_action = Some released /\ _current_action b1 = pressed) then
      (mk (_input_pin b1) (_counter b1) (_states b1) released, released)
    else (b1, none)
  else (b1, none).

(** [action state() const]. *)
Definition state (b : t) : action := _current_action b.

(** The states a button goes through when [check] is called again and
    again, whatever the pin reads. *)
Inductive reachable (input_pin : avr_digital_input_pin) : t -> Prop :=
  | reachable_init : reachable input_pin (init input_pin)
  | reachable_check read b :
      reachable input_pin b -> reachable input_pin (check read b).1.

End avr_button.

(** *** Segment patterns *)

Definition SEG_A : Z := 1.
Definition SEG_B : Z := 2.
Definition SEG_C : Z := 4.
Definition SEG_D : Z := 8.
Definition SEG_E : Z := 16.
Definition SEG_F : Z := 32.
Definition SEG_G : Z := 64.
Definition SEG_DP : Z := 128.

Definition segs (l : list Z) : Z := foldr Z.lor 0 l.

(** [static constexpr uint8_t SEVSEG[16]]. *)
Definition SEVSEG : list Z := [
  segs [SEG_A; SEG_B; SEG_C; SEG_D; SEG_E; SEG_F];
  segs [SEG_B; SEG_C];
  segs [SEG_A; SEG_B; SEG_D; SEG_E; SEG_G];
  segs [SEG_A; SEG_B; SEG_C; SEG_D; SEG_G];
  segs [SEG_B; SEG_C; SEG_F; SEG_G];
  segs [SEG_A; SEG_C; SEG_D; SEG_F; SEG_G];
  segs [SEG_C; SEG_D; SEG_E; SEG_F; SEG_G];
  segs [SEG_A; SEG_B; SEG_C];
  segs [SEG_A; SEG_B; SEG_C; SEG_D; SEG_E; SEG_F; SEG_G];
  segs [SEG_A; SEG_B; SEG_C; SEG_F; SEG_G];
  segs [SEG_A; SEG_B; SEG_C; SEG_E; SEG_F; SEG_G];
  segs [SEG_C; SEG_D; SEG_E; SEG_F; SEG_G];
  segs [SEG_A; SEG_D; SEG_E; SEG_F];
  segs [SEG_B; SEG_C; SEG_D; SEG_E; SEG_G];
  segs [SEG_A; SEG_D; SEG_E; SEG_F; SEG_G];
  segs [SEG_A; SEG_E; SEG_F; SEG_G]
].

(** [SEVSEG[i]]; every index the program computes is below 16. *)
Definition sevseg (i : Z) : Z := default 0 (SEVSEG !! Z.to_nat i).

(** *** The segment pins shared by the digits *)

Module avr_seven_segment_pins.

Record t : Set := mk {
  _segs : list avr_digital_output_pin_interface;
  _current_display : Z
}.

(** [void display_custom(uint8_t mask)]: the eight pins in order, then
    the remembered mask.  [_segs] has eight cells. *)
Definition display_custom (mask : Z) (s : t) (w : trace) : t * trace :=
  let w' :=
    foldl (fun w i =>
             match _segs s !! i with
             | Some pin => set pin (negb (Z.land mask (Z.shiftl 1 (Z.of_nat i)) =? 0)) w
             | None => w
             end) w (seq 0 8) in
  (mk (_segs s) mask, w').

(** [void display_decimal(uint8_t number)]. *)
Definition display_decimal (number : Z) (s : t) (w : trace) : t * trace :=
  display_custom (sevseg (Z.rem number 10)) s w.

(** [void display_hex(uint8_t number)]. *)
Definition display_hex (number : Z) (s : t) (w : trace) : t * trace :=
  display_custom (sevseg (Z.rem number 16)) s w.

(** [void display_decimal_point(bool display)]. *)
Definition display_decimal_point (display : bool) (s : t) (w : trace) : t * trace :=
  if display then display_custom (to_uint8 (Z.lor (_current_display s) SEG_DP)) s w
  else display_custom (to_uint8 (Z.land (_current_display s) (Z.lnot SEG_DP))) s w.

(** [void clear()]. *)
Definition clear (s : t) (w : trace) : t * trace := display_custom 0 s w.

End avr_seven_segment_pins.

(** *** The time multiplexed display *)

Module avr_seven_segment_display.

(** [template <uint8_t num_digits_t> struct avr_seven_segment_display].
    [_seg] is a reference in the source; the value kept here is the
    state of the object it refers to, handed back by every member
    function that changes it.  [_digits] has [num_digits_t] cells. *)
Record t : Set := mk {
  num_digits_t : Z;
  _seg : avr_seven_segment_pins.t;
  _colon : avr_digital_output_pin_interface;
  _digits : list avr_digital_output_pin_interface
}.

(** [static const int DIGIT_DELAY_MS = 3]. *)
Definition DIGIT_DELAY_MS : Z := 3.

Definition with_seg (s : avr_seven_segment_pins.t) (d : t) : t :=
  mk (num_digits_t d) s (_colon d) (_digits d).

(** [_digits[i]->set(high)]. *)
Definition digit_set (i : nat) (high : bool) (d : t) (w : trace) : trace :=
  match _digits d !! i with
  | Some pin => set pin high w
  | None => w ++ [ev_digits_out_of_bounds i]
  end.

(** [void clear_digits()]. *)
Definition clear_digits (d : t) (w : trace) : trace :=
  foldl (fun w i => digit_set i false d w) w (seq 0 (Z.to_nat (num_digits_t d))).

(** The body of the loop of [display_decimal] for digit [i], on the
    pair of the local [number] and the object. *)
Definition display_decimal_body (decimal_point : Z) (st : Z * (t * trace)) (i : nat)
  : Z * (t * trace) :=
  let '(number, (d, w)) := st in
  let '(number, (s, w)) :=
    if negb (number =? 0) then
      (to_uint8 (Z.quot number 10),
       avr_seven_segment_pins.display_decimal (to_uint8 (Z.rem number 10)) (_seg d) w)
    else if (Z.of_nat i =? 0) || ((decimal_point >=? 0) && (Z.of_nat i <=? decimal_point)) then
      (number, avr_seven_segment_pins.display_decimal 0 (_seg d) w)
    else
      (number, avr_seven_segment_pins.clear (_seg d) w) in
  let '(s, w) :=
    if Z.of_nat i =? decimal_point then
      avr_seven_segment_pins.display_decimal_point true s w
    else (s, w) in
  let w := digit_set i true d w in
  let w := _delay_ms DIGIT_DELAY_MS w in
  let w := digit_set i false d w in
  let '(s, w) := avr_seven_segment_pins.clear s w in
  (number, (with_seg s d, w)).

(** [void display_decimal(uint8_t number, int8_t decimal_point = -1)]. *)
Definition display_decimal (number decimal_point : Z) (d : t) (w : trace) : t * trace :=
  let w := clear_digits d w in
  (foldl (display_decimal_body decimal_point) (number, (d, w))
         (seq 0 (Z.to_nat (num_digits_t d)))).2.

(** The body of the loop of [display_hex]; [number] is a [uint32_t]. *)
Definition display_hex_body (decimal_point : Z) (st : Z * (t * trace)) (i : nat)
  : Z * (t * trace) :=
  let '(number, (d, w)) := st in
  let '(number, (s, w)) :=
    if negb (number =? 0) then
      (to_uint32 (Z.quot number 16),
       avr_seven_segment_pins.display_hex (to_uint8 (Z.rem number 16)) (_seg d) w)
    else if (Z.of_nat i =? 0) || ((decimal_point >=? 0) && (Z.of_nat i <=? decimal_point)) then
      (number, avr_seven_segment_pins.display_hex 0 (_seg d) w)
    else
      (number, avr_seven_segment_pins.clear (_seg d) w) in
  let '(s, w) :=
    if Z.of_nat i =? decimal_point then
      avr_seven_segment_pins.display_decimal_point true s w
    else (s, w) in
  let w := digit_set i true d w in
  let w := _delay_ms DIGIT_DELAY_MS w in
  let w := digit_set i false d w in
  let '(s, w) := avr_seven_segment_pins.clear s w in
  (number, (with_seg s d, w)).

(** [void display_hex(uint32_t number, int8_t decimal_point = -1)]. *)
Definition display_hex (number decimal_point : Z) (d : t) (w : trace) : t * trace :=
  let w := clear_digits d w in
  (foldl (display_hex_body decimal_point) (number, (d, w))
         (seq 0 (Z.to_nat (num_digits_t d)))).2.

(** [void display_colon(bool display)]. *)
Definition display_colon (display : bool) (d : t) (w : trace) : trace :=
  set (_colon d) display w.

(** [void display_custom(uint8_t mask, uint8_t digit)]. *)
Definition display_custom (mask digit : Z) (d : t) (w : trace) : t * trace :=
  if digit <=? num_digits_t d then
    let w := clear_digits d w in
    let '(s, w) := avr_seven_segment_pins.display_custom mask (_seg d) w in
    (with_seg s d, digit_set (Z.to_nat digit) true d w)
  else (d, w).

End avr_seven_segment_display.

(** *** The wiring of [scorgasmatron.cpp] used in the examples *)

Definition seven_segment_pins : avr_seven_segment_pins.t :=
  avr_seven_segment_pins.mk
    [avr_digital_output_pin avr_io_bank_d 0; avr_digital_output_pin avr_io_bank_d 1;
     avr_digital_output_pin avr_io_bank_d 2; avr_digital_output_pin avr_io_bank_d 3;
     avr_digital_output_pin avr_io_bank_d 4; avr_digital_output_pin avr_io_bank_d 5;
     avr_digital_output_pin avr_io_bank_d 6; avr_digital_output_pin_null] 0.

Definition p1_score_display : avr_seven_segment_display.t :=
  avr_seven_segment_display.mk 2 seven_segment_pins avr_digital_output_pin_null
    [avr_digital_output_pin avr_io_bank_b 1; avr_digital_output_pin avr_io_bank_b 2].

Definition undo_switch : avr_digital_input_pin :=
  {| input_bank := avr_io_bank_d; input_bit := 7; _pull_up := true |}.

Definition game_mode_switch : avr_digital_input_pin :=
  {| input_bank := avr_io_bank_c; input_bit := 2; _pull_up := true |}.

Definition first_serve_switch : avr_digital_input_pin :=
  {| input_bank := avr_io_bank_c; input_bit := 3; _pull_up := true |}.

Definition p1_score_switch : avr_digital_input_pin :=
  {| input_bank := avr_io_bank_c; input_bit := 4; _pull_up := true |}.

Definition p2_score_switch : avr_digital_input_pin :=
  {| input_bank := avr_io_bank_c; input_bit := 5; _pull_up := true |}.

Definition p1_serve_led : avr_digital_output_pin_interface :=
  avr_digital_output_pin avr_io_bank_c 0.

Definition p2_serve_led : avr_digital_output_pin_interface :=
  avr_digital_output_pin avr_io_bank_c 1.

Definition p1_games_won_display : avr_seven_segment_display.t :=
  avr_seven_segment_display.mk 1 seven_segment_pins avr_digital_output_pin_null
    [avr_digital_output_pin avr_io_bank_b 0].

Definition p2_score_display : avr_seven_segment_display.t :=
  avr_seven_segment_display.mk 2 seven_segment_pins avr_digital_output_pin_null
    [avr_digital_output_pin avr_io_bank_b 4; avr_digital_output_pin avr_io_bank_b 5].

Definition p2_games_won_display : avr_seven_segment_display.t :=
  avr_seven_segment_display.mk 1 seven_segment_pins avr_digital_output_pin_null
    [avr_digital_output_pin avr_io_bank_b 3].

(** *** The polling loop of [main] *)

Module program.

(** The objects the loop works on: the engine, the five buttons, the
    segment pins that the four displays share, and what the board has
    been asked to do so far. *)
Record t : Type := mk {
  tt : table_tennis.t;
  game_mode_button : avr_button.t;
  first_serve_button : avr_button.t;
  undo_button : avr_button.t;
  p1_score_button : avr_button.t;
  p2_score_button : avr_button.t;
  segment_pins : avr_seven_segment_pins.t;
  out : trace
}.

(** The levels the five switches read in one pass of the loop. *)
Record inputs : Set := {
  game_mode_read : bool;
  first_serve_read : bool;
  undo_read : bool;
  p1_score_read : bool;
  p2_score_read : bool
}.

(** The objects when [main] starts. *)
Definition init : t :=
  mk table_tennis.init
     (avr_button.init game_mode_switch) (avr_button.init first_serve_switch)
     (avr_button.init undo_switch) (avr_button.init p1_score_switch)
     (avr_button.init p2_score_switch) seven_segment_pins [].

(** [display.display_decimal(value)] on a display that refers to the
    shared segment pins; [value] is an [int] converted to [uint8_t]. *)
Definition display (disp : avr_seven_segment_display.t) (value : Z)
    (sw : avr_seven_segment_pins.t * trace) : avr_seven_segment_pins.t * trace :=
  let '(d, w) :=
    avr_seven_segment_display.display_decimal (to_uint8 value) (-1)
      (avr_seven_segment_display.with_seg sw.1 disp) sw.2 in
  (avr_seven_segment_display._seg d, w).

(** The part of the body of [while (true)] that handles the inputs. *)
Definition handle_inputs (i : inputs) (m : t) : t :=
  let '(b_mode, a_mode) := avr_button.check (game_mode_read i) (game_mode_button m) in
  let e :=
    match a_mode with
    | avr_button.pressed => table_tennis.set_game_mode table_tennis.to_11 (tt m)
    | avr_button.released => table_tennis.set_game_mode table_tennis.to_21 (tt m)
    | avr_button.none => tt m
    end in
  let '(b_first, a_first) := avr_button.check (first_serve_read i) (first_serve_button m) in
  let e :=
    match a_first with
    | avr_button.pressed => table_tennis.set_first_serve table_tennis.p1 e
    | avr_button.released => table_tennis.set_first_serve table_tennis.p2 e
    | avr_button.none => e
    end in
  let '(b_undo, a_undo) := avr_button.check (undo_read i) (undo_button m) in
  let e := if decide (a_undo = avr_button.pressed) then table_tennis.undo e else e in
  let '(b_p1, a_p1) := avr_button.check (p1_score_read i) (p1_score_button m) in
  let e := if decide (a_p1 = avr_button.pressed) then table_tennis.p1_score e else e in
  let '(b_p2, a_p2) := avr_button.check (p2_score_read i) (p2_score_button m) in
  let e := if decide (a_p2 = avr_button.pressed) then table_tennis.p2_score e else e in
  mk e b_mode b_first b_undo b_p1 b_p2 (segment_pins m) (out m).

(** The part that handles the outputs. *)
Definition handle_outputs (m : t) : t :=
  let e := tt m in
  let w := set p1_serve_led (bool_decide (table_tennis.serve e = table_tennis.p1)) (out m) in
  let w := set p2_serve_led (negb (bool_decide (table_tennis.serve e = table_tennis.p1))) w in
  let sw := display p1_score_display (table_tennis.get_p1_score e) (segment_pins m, w) in
  let sw := display p1_games_won_display (table_tennis.get_p1_games_won e) sw in
  let sw := display p2_score_display (table_tennis.get_p2_score e) sw in
  let sw := display p2_games_won_display (table_tennis.get_p2_games_won e) sw in
  mk e (game_mode_button m) (first_serve_button m) (undo_button m)
     (p1_score_button m) (p2_score_button m) sw.1 sw.2.

(** One pass of the body of [while (true)]. *)
Definition loop_body (i : inputs) (m : t) : t := handle_outputs (handle_inputs i m).

(** The passes made while the switches read [ins], the head first. *)
Definition loop (ins : list inputs) (m : t) : t := foldl (fun m i => loop_body i m) m ins.

End program.

(* ================================================================= *)
(** ** Vocabulary of the properties *)
(* ================================================================= *)

Section scoring_vocabulary.
Import table_tennis.

(** The entries of [_history] that are valid, oldest first. *)
Definition history_view (e : t) : list game_state.t :=
  take (Z.to_nat (_history_index e + 1)) (_history e).

(** The array keeps its size and the index stays inside it. *)
Definition history_ok (e : t) : Prop :=
  length (_history e) = Z.to_nat MAX_UNDO /\ -1 <= _history_index e < MAX_UNDO.

Definition deuce_threshold (m : game_mode) : Z :=
  match m with to_11 => 10 | to_21 => 20 end.

Definition target (m : game_mode) : Z :=
  match m with to_11 => 11 | to_21 => 21 end.

Definition other (x : serve_player) : serve_player :=
  match x with p1 => p2 | p2 => p1 end.

Definition score_of (x : serve_player) (s : game_state.t) : Z :=
  match x with p1 => game_state.p1_score s | p2 => game_state.p2_score s end.

Definition games_won_of (x : serve_player) (s : game_state.t) : Z :=
  match x with p1 => game_state.p1_games_won s | p2 => game_state.p2_games_won s end.

(** The game state once [x]'s score has been incremented, before the
    win is evaluated. *)
Definition add_point (x : serve_player) (s : game_state.t) : game_state.t :=
  match x with
  | p1 => game_state.set_p1_score (game_state.p1_score s + 1) s
  | p2 => game_state.set_p2_score (game_state.p2_score s + 1) s
  end.

Definition in_deuce (s : game_state.t) : Prop :=
  deuce_threshold (game_state.mode s) <= game_state.p1_score s /\
  deuce_threshold (game_state.mode s) <= game_state.p2_score s.

#[global] Instance in_deuce_dec (s : game_state.t) : Decision (in_deuce s).
Proof. unfold in_deuce. apply _. Defined.

(** The win condition of player [x]: a lead of two in deuce, the
    target of the mode outside it. *)
Definition win_condition (x : serve_player) (s : game_state.t) : Prop :=
  (in_deuce s /\ score_of (other x) s + 2 <= score_of x s) \/
  (~ in_deuce s /\ target (game_state.mode s) <= score_of x s).

(** A game in progress: no negative score and nobody has won yet. *)
Definition game_open (s : game_state.t) : Prop :=
  0 <= game_state.p1_score s /\ 0 <= game_state.p2_score s /\
  ~ win_condition p1 s /\ ~ win_condition p2 s.

(** The invariant of the engine. *)
Definition wf (e : t) : Prop :=
  history_ok e /\ game_open (_state e) /\ Forall game_open (history_view e).

Definition score_points (xs : list serve_player) (e : t) : t :=
  foldl (fun e x => score_point x e) e xs.

Definition undos (n : nat) (e : t) : t := Nat.iter n undo e.

(** The server in the words of the design document: the interval, the
    intervals elapsed (a floor division) and their parity. *)
Definition serve_interval (s : game_state.t) : Z :=
  if decide (in_deuce s) then 1
  else match game_state.mode s with to_11 => 2 | to_21 => 5 end.

Definition intervals_elapsed (s : game_state.t) : Z :=
  (game_state.p1_score s + game_state.p2_score s) `div` serve_interval s.

Definition serve_spec (s : game_state.t) : serve_player :=
  if Z.even (intervals_elapsed s) then game_state.first_serve s
  else other (game_state.first_serve s).

(** Ten points each, played in turn: the score 10-10. *)
Definition deuce_10_10 : list call :=
  concat (replicate 10 [call_p1_score; call_p2_score]).

Definition is_config (c : call) : Prop :=
  match c with
  | call_set_game_mode _ | call_set_first_serve _ => True
  | _ => False
  end.

End scoring_vocabulary.

Section button_vocabulary.
Import avr_button.

(** The sample [check] stores: with the pull-up enabled a low level
    means that the button is held down. *)
Definition classify (pin : avr_digital_input_pin) (read : bool) : action :=
  if pull_up pin then (if read then released else pressed)
  else (if read then pressed else released).

(** The three slots of the ring buffer all hold [s]. *)
Definition slots_agree (b : t) (s : action) : Prop :=
  _states b !! 0%nat = Some s /\ _states b !! 1%nat = Some s /\ _states b !! 2%nat = Some s.

(** The invariant of a button: [none] is never stored nor latched. *)
Definition button_ok (pin : avr_digital_input_pin) (b : t) : Prop :=
  _input_pin b = pin /\
  0 <= _counter b < 256 /\
  length (_states b) = 3%nat /\
  Forall (fun s => s <> none) (_states b) /\
  _current_action b <> none.

End button_vocabulary.

Section display_vocabulary.
Import avr_seven_segment_display.

(** What is left of [value] when digit [i] is reached. *)
Definition remaining (value : Z) (i : nat) : Z := value `div` 10 ^ Z.of_nat i.

(** The pattern of digit [i] in the words of the design document. *)
Definition digit_glyph (value decimal_point : Z) (i : nat) : Z :=
  if decide (remaining value i <> 0) then sevseg (remaining value i `mod` 10)
  else if decide (i = 0%nat \/ (0 <= decimal_point /\ Z.of_nat i <= decimal_point))
       then sevseg 0
       else 0.

(** One multiplexing slot: [pattern] on the segment pins, the decimal
    point on the digit that carries it, digit [i] selected for the hold
    time, then everything switched off. *)
Definition show_digit (decimal_point : Z) (i : nat) (pattern : Z) (st : t * trace)
  : t * trace :=
  let '(d, w) := st in
  let '(s, w) := avr_seven_segment_pins.display_custom pattern (_seg d) w in
  let '(s, w) :=
    if Z.of_nat i =? decimal_point then
      avr_seven_segment_pins.display_decimal_point true s w
    else (s, w) in
  let w := digit_set i true d w in
  let w := _delay_ms DIGIT_DELAY_MS w in
  let w := digit_set i false d w in
  let '(s, w) := avr_seven_segment_pins.clear s w in
  (with_seg s d, w).

(** The slots of digits [0] to [n - 1], in this order, digit [i]
    showing [glyph i]. *)
Definition show_digits (decimal_point : Z) (glyph : nat -> Z) (n : nat) (st : t * trace)
  : t * trace :=
  foldl (fun st i => show_digit decimal_point i (glyph i) st) st (seq 0 n).

End display_vocabulary.

Section button_runs_vocabulary.
Import avr_button.

(** [check] called once per sample, the head of [reads] first: the
    button left and the values returned. *)
Fixpoint checks (reads : list bool) (b : t) : t * list action :=
  match reads with
  | [] => (b, [])
  | r :: rs =>
      let '(b1, a) := check r b in
      let '(b2, l) := checks rs b1 in
      (b2, a :: l)
  end.

(** Every edge of [l] is the opposite of the one before it, the first
    one the opposite of [cur]. *)
Fixpoint alternates (cur : action) (l : list action) : Prop :=
  match l with
  | [] => True
  | a :: l' =>
      ((cur = released /\ a = pressed) \/ (cur = pressed /\ a = released))
      /\ alternates a l'
  end.

(** The slot [check] writes. *)
Definition slot_of (c : Z) : nat := Z.to_nat (Z.rem c 3).

(** Four calls in a row write all three slots, whatever the counter. *)
Definition covers (c : Z) : bool :=
  let c1 := to_uint8 (c + 1) in
  let c2 := to_uint8 (c1 + 1) in
  let c3 := to_uint8 (c2 + 1) in
  forallb (fun j => existsb (Nat.eqb j) [slot_of c; slot_of c1; slot_of c2; slot_of c3])
          [0; 1; 2]%nat.

End button_runs_vocabulary.

Section refresh_vocabulary.
Import avr_seven_segment_display.

(** What is left of [value] when [display_hex] reaches digit [i]. *)
Definition remaining_hex (value : Z) (i : nat) : Z := value `div` 16 ^ Z.of_nat i.

(** The pattern [display_hex] puts on digit [i]. *)
Definition hex_glyph (value decimal_point : Z) (i : nat) : Z :=
  if decide (remaining_hex value i <> 0) then sevseg (remaining_hex value i `mod` 16)
  else if decide (i = 0%nat \/ (0 <= decimal_point /\ Z.of_nat i <= decimal_point))
       then sevseg 0
       else 0.

(** The time spent in [_delay_ms], in milliseconds. *)
Definition delay_total (w : trace) : Z :=
  foldr (fun ev acc => match ev with ev_delay_ms ms => ms + acc | _ => acc end) 0 w.

(** No read past the end of [_digits] happened. *)
Definition in_bounds (w : trace) : Prop :=
  Forall (fun ev => match ev with ev_digits_out_of_bounds _ => False | _ => True end) w.

(** [w'] continues [w] with pin writes only. *)
Definition writes_only (w w' : trace) : Prop :=
  exists ext, w' = w ++ ext /\
    Forall (fun ev => match ev with ev_set _ _ _ => True | _ => False end) ext.

(** [w'] continues [w] with events that stay inside [_digits] and hold
    for [ms] milliseconds in total. *)
Definition extends_with (ms : Z) (w w' : trace) : Prop :=
  exists ext, w' = w ++ ext /\ delay_total ext = ms /\ in_bounds ext.

(** The display once a refresh has served at least one digit: same
    wiring, segment pins blank. *)
Definition dark (d : t) : t :=
  with_seg (avr_seven_segment_pins.mk (avr_seven_segment_pins._segs (_seg d)) 0) d.

End refresh_vocabulary.

Section program_vocabulary.
Import program.

(** The wiring does not change: the segment pins are the ones [main]
    declares, blank between two refreshes. *)
Definition wired (m : t) : Prop := segment_pins m = seven_segment_pins.

(** What holds of the objects of [main] in every pass. *)
Definition running (m : t) : Prop :=
  table_tennis.reachable (tt m) /\
  avr_button.reachable game_mode_switch (game_mode_button m) /\
  avr_button.reachable first_serve_switch (first_serve_button m) /\
  avr_button.reachable undo_switch (undo_button m) /\
  avr_button.reachable p1_score_switch (p1_score_button m) /\
  avr_button.reachable p2_score_switch (p2_score_button m) /\
  wired m.

(** All switches open (the pull-ups read high). *)
Definition switches_open : inputs :=
  {| game_mode_read := true; first_serve_read := true; undo_read := true;
     p1_score_read := true; p2_score_read := true |}.

End program_vocabulary.

(* ================================================================= *)
(** ** The scoring engine *)
(* ================================================================= *)

Section scoring.
Import table_tennis.

(** *** The history as a bounded stack *)

Lemma shift_steps (h : list game_state.t) (n : nat) :
  (n < length h)%nat ->
  foldl shift_step h (seq 0 n) = take n (drop 1 h) ++ drop n h.
Proof.
  induction n as [|n IH]; intros Hn.
  - by rewrite drop_0.
  - rewrite seq_S, foldl_app, IH by lia. cbn [foldl plus].
    destruct (lookup_lt_is_Some_2 h (S n) Hn) as [x Hx].
    assert (Hlen : length (take n (drop 1 h)) = n)
      by (rewrite length_take, length_drop; lia).
    unfold shift_step.
    rewrite lookup_app_r by lia. rewrite Hlen, lookup_drop.
    replace (n + (S n - n))%nat with (S n) by lia. rewrite Hx.
    rewrite insert_app_r_alt by lia. rewrite Hlen, Nat.sub_diag.
    assert (Hd : drop 1 h !! n = Some x) by (by rewrite lookup_drop).
    rewrite (take_S_r _ _ _ Hd), <- app_assoc. f_equal.
    destruct (lookup_lt_is_Some_2 h n ltac:(lia)) as [y Hy].
    rewrite (drop_S _ _ _ Hy). cbn. by rewrite (drop_S _ _ _ Hx).
Qed.

Lemma shift_down_spec (h : list game_state.t) :
  length h = Z.to_nat MAX_UNDO ->
  shift_down h = drop 1 h ++ drop (Z.to_nat (MAX_UNDO - 1)) h.
Proof.
  intros Hl. unfold shift_down. rewrite shift_steps by (rewrite Hl; unfold MAX_UNDO; lia).
  f_equal. apply take_ge. rewrite length_drop, Hl. unfold MAX_UNDO. lia.
Qed.

Lemma save_state_state e : _state (save_state e) = _state e.
Proof. unfold save_state. by destruct (_ =? _). Qed.

Lemma save_state_ok e : history_ok e -> history_ok (save_state e).
Proof.
  intros [Hl Hi]. unfold history_ok, save_state, MAX_UNDO in *.
  destruct (Z.eqb_spec (_history_index e) (32 - 1)) as [E|E]; cbn.
  - rewrite length_insert, shift_down_spec by done.
    rewrite length_app, !length_drop, Hl. unfold MAX_UNDO. lia.
  - rewrite length_insert. lia.
Qed.

Lemma save_state_view e :
  history_ok e ->
  history_view (save_state e) =
    (if _history_index e =? MAX_UNDO - 1 then drop 1 (history_view e) else history_view e)
    ++ [_state e].
Proof.
  intros [Hl Hi]. unfold history_view, save_state, MAX_UNDO in *.
  destruct (Z.eqb_spec (_history_index e) (32 - 1)) as [E|E]; cbn.
  - rewrite shift_down_spec by done. rewrite E. unfold MAX_UNDO.
    change (Z.to_nat (31 - 1 + 1)) with 31%nat.
    change (Z.to_nat (31 + 1)) with 32%nat.
    change (Z.to_nat (32 - 1)) with 31%nat.
    rewrite (take_ge (_history e)) by lia.
    assert (Hd : length (drop 1 (_history e)) = 31%nat) by (rewrite length_drop; lia).
    rewrite insert_app_r_alt by lia. rewrite Hd, Nat.sub_diag.
    destruct (drop 31 (_history e)) as [|y l] eqn:Ed.
    { apply (f_equal length) in Ed. rewrite length_drop in Ed. cbn in Ed. lia. }
    cbn. rewrite take_app_ge by lia. rewrite Hd. by replace (32 - 31)%nat with 1%nat by lia.
  - replace (Z.to_nat (_history_index e + 1 + 1)) with (S (Z.to_nat (_history_index e + 1))) by lia.
    erewrite take_S_r by (apply list_lookup_insert_eq; lia).
    by rewrite take_insert_ge by lia.
Qed.

Lemma history_view_length e :
  history_ok e -> length (history_view e) = Z.to_nat (_history_index e + 1).
Proof. intros [Hl Hi]. unfold history_view, MAX_UNDO in *. rewrite length_take. lia. Qed.

Lemma undo_empty e : history_ok e -> history_view e = [] -> undo e = e.
Proof.
  intros Hok Hv. pose proof (history_view_length e Hok) as Hlen.
  rewrite Hv in Hlen. cbn in Hlen. destruct Hok as [_ Hi].
  unfold undo. destruct (Z.geb_spec (_history_index e) 0); [lia | done].
Qed.

Lemma undo_snoc e v s :
  history_ok e -> history_view e = v ++ [s] ->
  _state (undo e) = s /\ history_view (undo e) = v /\ history_ok (undo e).
Proof.
  intros Hok Hv. pose proof (history_view_length e Hok) as Hlen.
  rewrite Hv, length_app in Hlen. cbn in Hlen. destruct Hok as [Hl Hi].
  unfold undo. destruct (Z.geb_spec (_history_index e) 0); [|lia].
  unfold history_view, history_ok in *. cbn.
  assert (Hs : _history e !! Z.to_nat (_history_index e) = Some s).
  { rewrite <- (lookup_take_lt _ (Z.to_nat (_history_index e + 1))) by lia.
    rewrite Hv, lookup_app_r by lia.
    by replace (Z.to_nat (_history_index e) - length v)%nat with 0%nat by lia. }
  rewrite Hs. cbn. split; [done|]. split; [|lia].
  replace (Z.to_nat (_history_index e + 1)) with (S (Z.to_nat (_history_index e))) in Hv by lia.
  rewrite (take_S_r _ _ _ Hs) in Hv. apply app_inj_tail in Hv as [Hv _].
  by replace (_history_index e - 1 + 1) with (_history_index e) by lia.
Qed.

(** *** Who wins a point *)

Lemma deuce_spec e : deuce e = true <-> in_deuce (_state e).
Proof.
  unfold deuce, in_deuce, get_p1_score, get_p2_score, deuce_threshold.
  rewrite andb_true_iff, !Z.geb_le.
  destruct (game_state.mode (_state e)); case_decide; try done; lia.
Qed.

Lemma deuce_false e : deuce e = false <-> ~ in_deuce (_state e).
Proof. rewrite <- deuce_spec. by destruct (deuce e). Qed.

Ltac score_cases :=
  repeat match goal with
  | |- context [Z.geb ?a ?b] => destruct (Z.geb_spec a b)
  | |- context [Z.eqb ?a ?b] => destruct (Z.eqb_spec a b)
  end.

Lemma check_for_win_cases e :
  let s := _state e in
  (win_condition p1 s /\ check_for_win e = p1_wins e) \/
  (~ win_condition p1 s /\ win_condition p2 s /\ check_for_win e = p2_wins e) \/
  (~ win_condition p1 s /\ ~ win_condition p2 s /\ check_for_win e = e).
Proof.
  cbn zeta. unfold check_for_win, win_condition.
  destruct (deuce e) eqn:Ed.
  - apply deuce_spec in Ed. unfold get_p1_score, get_p2_score. cbn [score_of other].
    score_cases; [left | right; left | right; right]; intuition lia.
  - apply deuce_false in Ed. unfold get_p1_score, get_p2_score, target. cbn [score_of other].
    destruct (game_state.mode (_state e)); case_decide; try done;
    score_cases; first [left; intuition lia | right; left; intuition lia | right; right; intuition lia].
Qed.

Lemma score_point_unfold x e :
  score_point x e =
  check_for_win (with_state (add_point x (_state e)) (save_state e)).
Proof. destruct x; cbn; unfold p1_score, p2_score; by rewrite save_state_state. Qed.

Lemma check_for_win_history e :
  _history (check_for_win e) = _history e /\
  _history_index (check_for_win e) = _history_index e.
Proof.
  destruct (check_for_win_cases e) as [[_ ->]|[(_ & _ & ->)|(_ & _ & ->)]]; done.
Qed.

Lemma score_point_history x e :
  _history (score_point x e) = _history (save_state e) /\
  _history_index (score_point x e) = _history_index (save_state e).
Proof.
  rewrite score_point_unfold.
  by destruct (check_for_win_history
                 (with_state (add_point x (_state e)) (save_state e))) as [-> ->].
Qed.

Lemma score_point_view x e :
  history_view (score_point x e) = history_view (save_state e).
Proof.
  unfold history_view. by destruct (score_point_history x e) as [-> ->].
Qed.

Lemma score_point_ok x e : history_ok e -> history_ok (score_point x e).
Proof.
  intros H. apply save_state_ok in H. unfold history_ok in *.
  by destruct (score_point_history x e) as [-> ->].
Qed.

(** The state [score_point] leaves, by cases on the win condition. *)
Lemma score_point_state x e :
  let s1 := add_point x (_state e) in
  (win_condition p1 s1 /\
   _state (score_point x e) =
     reset_scores (game_state.set_p1_games_won (game_state.p1_games_won s1 + 1) s1)) \/
  (~ win_condition p1 s1 /\ win_condition p2 s1 /\
   _state (score_point x e) =
     reset_scores (game_state.set_p2_games_won (game_state.p2_games_won s1 + 1) s1)) \/
  (~ win_condition p1 s1 /\ ~ win_condition p2 s1 /\ _state (score_point x e) = s1).
Proof.
  cbn zeta. rewrite score_point_unfold.
  destruct (check_for_win_cases (with_state (add_point x (_state e)) (save_state e)))
    as [[H ->]|[(H1 & H2 & ->)|(H1 & H2 & ->)]]; cbn in *; eauto 6.
Qed.

Ltac unfold_game :=
  unfold game_open, win_condition, in_deuce, add_point, score_of, other,
    target, deuce_threshold, reset_scores in *; cbn in *.

(** Who did not score cannot have won. *)
Lemma add_point_other x s :
  game_open s -> ~ win_condition (other x) (add_point x s).
Proof.
  destruct s as [g1 s1 g2 s2 f m]. unfold_game.
  destruct x, m; cbn; lia.
Qed.

Lemma game_open_add_point x s :
  game_open s -> ~ win_condition x (add_point x s) -> game_open (add_point x s).
Proof.
  intros Ho Hw. pose proof (add_point_other x s Ho) as Hw'.
  destruct s as [g1 s1 g2 s2 f m]. unfold_game.
  destruct x, m; cbn in *; lia.
Qed.

Lemma game_open_zero s :
  game_state.p1_score s = 0 -> game_state.p2_score s = 0 -> game_open s.
Proof.
  destruct s as [g1 s1 g2 s2 f m]. unfold_game. intros -> ->.
  destruct m; cbn; lia.
Qed.

Lemma score_point_open x e :
  game_open (_state e) -> game_open (_state (score_point x e)).
Proof.
  intros Ho.
  destruct (score_point_state x e) as [[H ->]|[(H1 & H2 & ->)|(H1 & H2 & ->)]];
    try by apply game_open_zero.
  destruct x; [apply (game_open_add_point p1) | apply (game_open_add_point p2)]; done.
Qed.

Lemma snoc_cases {A} (l : list A) : l = [] \/ exists v s, l = v ++ [s].
Proof. induction l using rev_ind; eauto. Qed.

Lemma wf_init : wf init.
Proof.
  split; [|split].
  - split; [done | unfold MAX_UNDO; cbn; lia].
  - by apply game_open_zero.
  - constructor.
Qed.

Lemma wf_exec c e : wf e -> wf (exec c e).
Proof.
  intros (Hok & Ho & Hv).
  assert (Hscore : forall x, wf (score_point x e)).
  { intros x. split; [by apply score_point_ok|]. split; [by apply score_point_open|].
    rewrite score_point_view, save_state_view by done.
    apply Forall_app. split; [|by constructor].
    destruct (_ =? _); [by apply Forall_drop | done]. }
  destruct c; cbn.
  - apply (Hscore p1).
  - apply (Hscore p2).
  - destruct (snoc_cases (history_view e)) as [Ev|(v0 & s0 & Ev)].
    + rewrite undo_empty; done.
    + destruct (undo_snoc e _ _ Hok Ev) as (Es & Ew & Hok').
      rewrite Ev in Hv. apply Forall_app in Hv as [Hv Hs].
      split; [done|]. rewrite Es, Ew. split; [by inversion Hs | done].
  - unfold set_game_mode. destruct (_ && _) eqn:E; [|done].
    apply andb_true_iff in E as [E1 E2]. apply Z.eqb_eq in E1, E2.
    split; [done|]. split; [by apply game_open_zero | done].
  - unfold set_first_serve. destruct (_ && _) eqn:E; [|done].
    apply andb_true_iff in E as [E1 E2]. apply Z.eqb_eq in E1, E2.
    split; [done|]. split; [by apply game_open_zero | done].
Qed.

Lemma reachable_wf e : reachable e -> wf e.
Proof. induction 1; [apply wf_init | by apply wf_exec]. Qed.

Lemma reachable_run cs e : reachable e -> reachable (run cs e).
Proof.
  revert e. induction cs as [|c cs IH]; intros e He; [done|].
  cbn. apply IH. by constructor.
Qed.

(** *** Winning a game *)

(** C1.  In every reachable state, [score_point x] adds exactly one to
    the games won by [x] and resets both scores to zero if and only if
    [x]'s win condition holds once [x]'s score has been incremented (a
    lead of two in deuce, the target of the mode outside deuce).  The
    games won by the other player do not change then, and the games
    won by both players do not change in any other case. *)
Theorem C1_game_won_iff_win_condition (e : t) (x : serve_player) :
  reachable e ->
  let s := _state e in
  let s' := _state (score_point x e) in
  let won := win_condition x (add_point x s) in
  ((games_won_of x s' = games_won_of x s + 1 /\
    game_state.p1_score s' = 0 /\ game_state.p2_score s' = 0) <-> won) /\
  (won -> games_won_of (other x) s' = games_won_of (other x) s) /\
  (~ won ->
   game_state.p1_games_won s' = game_state.p1_games_won s /\
   game_state.p2_games_won s' = game_state.p2_games_won s).
Proof.
  intros Hr. apply reachable_wf in Hr as (_ & Ho & _). cbn zeta.
  pose proof (add_point_other x _ Ho) as Hother.
  destruct (score_point_state x e) as [[H E]|[(H1 & H2 & E)|(H1 & H2 & E)]];
    rewrite E; clear E;
    destruct (_state e) as [g1 s1 g2 s2 f m]; destruct x; cbn in *;
    try tauto; intuition lia.
Qed.

Lemma C1_game_won_iff_win_condition_witness :
  let e := run (replicate 10 call_p1_score) init in
  games_won_of p1 (_state (score_point p1 e)) = games_won_of p1 (_state e) + 1 /\
  game_state.p1_score (_state (score_point p1 e)) = 0 /\
  game_state.p2_score (_state (score_point p1 e)) = 0.
Proof.
  cbn zeta.
  apply (proj2 (proj1 (C1_game_won_iff_win_condition
                         (run (replicate 10 call_p1_score) init) p1
                         (reachable_run _ _ reachable_init)))).
  vm_compute. right. split; [intros [_ H]; by apply H | discriminate].
Defined.

(** *** Undo *)

Lemma score_point_undo_state x e :
  history_ok e -> _state (undo (score_point x e)) = _state e.
Proof.
  intros Hok.
  eapply undo_snoc; [by apply score_point_ok|].
  rewrite score_point_view. by apply save_state_view.
Qed.

(** C2.  In every reachable state, [score_point x] followed by [undo]
    gives back the game state the call started from: scores, games
    won, first serve and mode, also when the point won a game. *)
Theorem C2_score_point_undo_round_trip (e : t) (x : serve_player) :
  reachable e -> _state (undo (score_point x e)) = _state e.
Proof. intros Hr. apply score_point_undo_state. by apply reachable_wf in Hr as [? _]. Qed.

Lemma C2_score_point_undo_round_trip_witness :
  let e := run (replicate 10 call_p1_score) init in
  _state (score_point p1 e) <> add_point p1 (_state e) /\
  _state (undo (score_point p1 e)) = _state e.
Proof.
  cbn zeta. split; [by vm_compute|].
  apply C2_score_point_undo_round_trip. apply reachable_run, reachable_init.
Defined.

(** While the history has room, every scoring call appends to it. *)
Lemma score_points_grow xs e :
  history_ok e ->
  (length (history_view e) + length xs <= Z.to_nat MAX_UNDO)%nat ->
  history_ok (score_points xs e) /\
  exists suffix,
    history_view (score_points xs e) = history_view e ++ suffix /\
    length suffix = length xs.
Proof.
  revert e. induction xs as [|x xs IH]; intros e Hok Hlen.
  - split; [done|]. exists []. by rewrite app_nil_r.
  - change (score_points (x :: xs) e) with (score_points xs (score_point x e)).
    cbn [length] in *. pose proof (history_view_length e Hok) as Hv.
    assert (Hview : history_view (score_point x e) = history_view e ++ [_state e]).
    { rewrite score_point_view, save_state_view by done.
      unfold MAX_UNDO in *. destruct (Z.eqb_spec (_history_index e) (32 - 1)); [lia|done]. }
    destruct (IH (score_point x e)) as (Hok' & suffix & E & Hs).
    { by apply score_point_ok. }
    { rewrite Hview, length_app. cbn. lia. }
    split; [done|]. exists (_state e :: suffix).
    rewrite E, Hview, <- app_assoc. cbn. by rewrite Hs.
Qed.

(** Undoing as many times as the history has entries brings back the
    oldest of them. *)
Lemma undos_all n : forall e s v,
  history_ok e -> history_view e = s :: v -> length v = n ->
  _state (undos (S n) e) = s.
Proof.
  unfold undos. induction n as [|n IH]; intros e s v Hok Hv Hn.
  - destruct v; [|done]. cbn. by apply (undo_snoc e [] s).
  - rewrite Nat.iter_succ_r.
    destruct (snoc_cases v) as [->|(v' & s' & ->)]; [done|].
    rewrite length_app in Hn. cbn in Hn.
    destruct (undo_snoc e (s :: v') s' Hok Hv) as (_ & Hv' & Hok').
    apply (IH _ _ v'); [done|done|lia].
Qed.

(** C3, as the code has it.  From the freshly constructed engine, 33
    scoring calls followed by 32 calls of [undo] leave the game state
    as it was right after the first scoring call: the snapshot taken
    by that first call, the initial state, is the one evicted.  The
    state reached is not the initial one. *)
Theorem C3_eviction_restores_state_after_first_call (xs : list serve_player) :
  length xs = 33%nat ->
  _state (undos 32 (score_points xs init)) = _state (score_points (take 1 xs) init) /\
  _state (undos 32 (score_points xs init)) <> _state init.
Proof.
  intros Hlen.
  destruct xs as [|x1 [|x2 rest]]; [done|done|]. cbn in Hlen.
  destruct (snoc_cases rest) as [->|(mid & x33 & ->)]; [done|].
  rewrite length_app in Hlen. cbn in Hlen.
  cbn [take]. unfold score_points at 1 3. cbn [foldl].
  rewrite foldl_app. cbn [foldl]. fold (score_points mid).
  set (e1 := score_point x1 init).
  assert (Hok0 : history_ok init) by apply wf_init.
  assert (Hok1 : history_ok e1) by by apply score_point_ok.
  assert (Hv1 : history_view e1 = [_state init]).
  { unfold e1. rewrite score_point_view, save_state_view by done. done. }
  set (e2 := score_point x2 e1).
  assert (Hok2 : history_ok e2) by by apply score_point_ok.
  assert (Hv2 : history_view e2 = [_state init; _state e1]).
  { unfold e2. rewrite score_point_view, save_state_view, Hv1 by done.
    pose proof (history_view_length e1 Hok1) as Hl. rewrite Hv1 in Hl. cbn in Hl.
    unfold MAX_UNDO. destruct (Z.eqb_spec (_history_index e1) (32 - 1)); [lia|done]. }
  destruct (score_points_grow mid e2 Hok2) as (Hok3 & suffix & Hv3 & Hs).
  { rewrite Hv2. unfold MAX_UNDO. cbn. lia. }
  set (e3 := score_points mid e2) in *.
  assert (Hv4 : history_view (score_point x33 e3)
                = _state e1 :: suffix ++ [_state e3]).
  { rewrite score_point_view, save_state_view, Hv3, Hv2 by done.
    pose proof (history_view_length e3 Hok3) as Hl.
    rewrite Hv3, Hv2, length_app in Hl. cbn in Hl.
    unfold MAX_UNDO. destruct (Z.eqb_spec (_history_index e3) (32 - 1)); [done|lia]. }
  assert (E : _state (undos 32 (score_point x33 e3)) = _state e1).
  { apply (undos_all 31 _ _ _ (score_point_ok _ _ Hok3) Hv4).
    rewrite length_app. cbn. lia. }
  assert (N : _state e1 <> _state init) by (unfold e1; destruct x1; by vm_compute).
  split; [exact E|]. intros Hc. apply N. rewrite <- E. exact Hc.
Qed.

Lemma C3_eviction_restores_state_after_first_call_witness :
  _state (undos 32 (score_points (replicate 33 p2) init))
  = _state (score_points (take 1 (replicate 33 p2)) init) /\
  _state (undos 32 (score_points (replicate 33 p2) init)) <> _state init.
Proof. apply C3_eviction_restores_state_after_first_call. reflexivity. Defined.

(** C3, as the design document has it, fails: 33 points of player one
    and 32 calls of [undo] end at 1-0, not at the 2-0 that followed
    the second call. *)
Lemma C3_not_state_after_second_call :
  length (replicate 33 p1) = 33%nat /\
  _state (undos 32 (score_points (replicate 33 p1) init))
  <> _state (score_points (take 2 (replicate 33 p1)) init).
Proof. split; [reflexivity | by vm_compute]. Qed.

(** *** The server *)

Lemma rem_2_even (n : Z) : 0 <= n -> (Z.rem n 2 =? 0) = Z.even n.
Proof.
  intros Hn. rewrite Z.rem_mod_nonneg by lia.
  rewrite Zmod_even. by destruct (Z.even n).
Qed.

Lemma serve_refines e :
  0 <= get_p1_score e -> 0 <= get_p2_score e -> serve e = serve_spec (_state e).
Proof.
  unfold get_p1_score, get_p2_score. intros H1 H2.
  unfold serve, serve_spec, intervals_elapsed, serve_interval, get_p1_score, get_p2_score.
  assert (Hi : (if deuce e then 1
                else if decide (game_state.mode (_state e) = to_11) then 2 else 5)
               = (if decide (in_deuce (_state e)) then 1
                  else match game_state.mode (_state e) with to_11 => 2 | to_21 => 5 end)).
  { destruct (deuce e) eqn:Ed.
    - apply deuce_spec in Ed. by rewrite (decide_True (P := in_deuce _)).
    - pose proof (proj1 (deuce_false e) Ed) as Hn. rewrite (decide_False (P := in_deuce _)) by done.
      destruct (game_state.mode (_state e)); by case_decide. }
  rewrite Hi. clear Hi.
  set (k := if decide (in_deuce (_state e)) then 1 else _).
  assert (Hk : 0 < k).
  { unfold k. case_decide; [lia|]. destruct (game_state.mode (_state e)); lia. }
  rewrite Z.quot_div_nonneg by lia.
  rewrite rem_2_even by (apply Z.div_pos; lia).
  destruct (Z.even _), (game_state.first_serve (_state e)); by case_decide.
Qed.

Lemma serve_spec_deuce s :
  in_deuce s ->
  serve_spec s =
  if Z.even (game_state.p1_score s + game_state.p2_score s)
  then game_state.first_serve s else other (game_state.first_serve s).
Proof.
  intros Hd. unfold serve_spec, intervals_elapsed, serve_interval.
  rewrite decide_True by done. by rewrite Z.div_1_r.
Qed.

Lemma other_ne x : other x <> x.
Proof. by destruct x. Qed.

Lemma serve_spec_zero s :
  game_state.p1_score s = 0 -> game_state.p2_score s = 0 ->
  serve_spec s = game_state.first_serve s.
Proof.
  intros E1 E2. unfold serve_spec, intervals_elapsed. by rewrite E1, E2, Zdiv_0_l.
Qed.

Lemma in_deuce_add_point x s : in_deuce s -> in_deuce (add_point x s).
Proof. destruct s, x; unfold in_deuce; cbn; lia. Qed.

(** In deuce the serve changes hands on every point, the one that ends
    the game included: the winner led by one, so the total was odd. *)
Lemma serve_flips_in_deuce e x :
  wf e -> in_deuce (_state e) -> serve (score_point x e) <> serve e.
Proof.
  intros (Hok & Ho & _) Hd.
  pose proof (score_point_open x e Ho) as Ho'.
  rewrite !serve_refines;
    try (destruct Ho, Ho'; unfold get_p1_score, get_p2_score; tauto).
  rewrite (serve_spec_deuce _ Hd).
  pose proof (in_deuce_add_point x _ Hd) as Hd'.
  destruct (score_point_state x e) as [[H E]|[(H1 & H2 & E)|(H1 & H2 & E)]];
    rewrite E; clear E.
  - rewrite serve_spec_zero by done.
    destruct (_state e) as [g1 s1 g2 s2 f m]. cbn.
    destruct (Z.even (s1 + s2)) eqn:Ev; [|by destruct x, f].
    apply Z.even_spec in Ev as [q Hq].
    unfold_game. destruct x; cbn in *; lia.
  - rewrite serve_spec_zero by done.
    destruct (_state e) as [g1 s1 g2 s2 f m]. cbn.
    destruct (Z.even (s1 + s2)) eqn:Ev; [|by destruct x, f].
    apply Z.even_spec in Ev as [q Hq].
    unfold_game. destruct x; cbn in *; lia.
  - rewrite (serve_spec_deuce _ Hd').
    assert (Et : game_state.p1_score (add_point x (_state e))
                 + game_state.p2_score (add_point x (_state e))
                 = Z.succ (game_state.p1_score (_state e) + game_state.p2_score (_state e)))
      by (destruct (_state e), x; cbn; lia).
    assert (Ef : game_state.first_serve (add_point x (_state e))
                 = game_state.first_serve (_state e))
      by (by destruct (_state e), x).
    rewrite Et, Ef, Z.even_succ, <- Z.negb_even.
    destruct (Z.even _); cbn; [apply other_ne | apply not_eq_sym, other_ne].
Qed.

(** C4.  In every reachable state [serve] is the server of the interval
    rule: interval 1 in deuce, else 2 (mode [to_11]) or 5 (mode
    [to_21]); the first server when the floor of the total over the
    interval is even, the other player when it is odd.  With mode
    [to_11] and first serve [p1] this is [p1] at 0-0 and 0-1 and [p2]
    when the total is 2; in deuce the serve changes hands on every
    point. *)
Theorem C4_serve_follows_interval_rule (e : t) :
  reachable e ->
  serve e = serve_spec (_state e) /\
  (game_state.mode (_state e) = to_11 -> game_state.first_serve (_state e) = p1 ->
   (get_p1_score e = 0 /\ get_p2_score e = 0 -> serve e = p1) /\
   (get_p1_score e = 0 /\ get_p2_score e = 1 -> serve e = p1) /\
   (get_p1_score e + get_p2_score e = 2 -> serve e = p2)) /\
  (in_deuce (_state e) -> forall x, serve (score_point x e) <> serve e).
Proof.
  intros Hr. apply reachable_wf in Hr as Hwf.
  destruct Hwf as (Hok & Ho & Hv).
  assert (Hpos : 0 <= get_p1_score e /\ 0 <= get_p2_score e) by (destruct Ho; tauto).
  split; [apply serve_refines; tauto|]. split.
  - intros Hm Hf. unfold serve, deuce, get_p1_score, get_p2_score in *.
    rewrite Hm, Hf. destruct Hpos as [P1 P2].
    destruct (_state e) as [g1 s1 g2 s2 f m]. cbn in *.
    repeat split.
    + by intros [-> ->].
    + by intros [-> ->].
    + intros Ht.
      assert (Hc : (s1 = 0 /\ s2 = 2) \/ (s1 = 1 /\ s2 = 1) \/ (s1 = 2 /\ s2 = 0)) by lia.
      by destruct Hc as [[-> ->]|[[-> ->]|[-> ->]]].
  - intros Hd x. apply serve_flips_in_deuce; done.
Qed.

Lemma C4_serve_follows_interval_rule_witness :
  serve init = p1 /\
  serve (run [call_p2_score] init) = p1 /\
  serve (run [call_p2_score; call_p1_score] init) = p2 /\
  serve (run deuce_10_10 init) = p1 /\
  serve (score_point p2 (run deuce_10_10 init)) <> serve (run deuce_10_10 init).
Proof.
  split; [|split; [|split; [|split]]].
  - apply (proj1 (proj1 (proj2 (C4_serve_follows_interval_rule init reachable_init))
                    eq_refl eq_refl)).
    split; reflexivity.
  - apply (proj1 (proj2 (proj1 (proj2
             (C4_serve_follows_interval_rule (run [call_p2_score] init)
                (reachable_run _ _ reachable_init))) eq_refl eq_refl))).
    split; reflexivity.
  - apply (proj2 (proj2 (proj1 (proj2
             (C4_serve_follows_interval_rule (run [call_p2_score; call_p1_score] init)
                (reachable_run _ _ reachable_init))) eq_refl eq_refl))).
    reflexivity.
  - rewrite (proj1 (C4_serve_follows_interval_rule (run deuce_10_10 init)
                      (reachable_run _ _ reachable_init))).
    vm_compute. reflexivity.
  - apply (proj2 (proj2 (C4_serve_follows_interval_rule (run deuce_10_10 init)
                           (reachable_run _ _ reachable_init)))).
    vm_compute. split; discriminate.
Defined.

(** *** Configuration *)

(** C8.  Once a score is nonzero, any number of calls of
    [set_game_mode] and [set_first_serve], whatever their arguments,
    leave the game state and the history as they are. *)
Theorem C8_configuration_locked_mid_game (e : t) (cs : list call) :
  get_p1_score e <> 0 \/ get_p2_score e <> 0 ->
  Forall is_config cs ->
  run cs e = e.
Proof.
  intros Hs Hcs. induction Hcs as [|c cs Hc _ IH]; [done|].
  cbn [run foldl].
  assert (Hg : (get_p1_score e =? 0) && (get_p2_score e =? 0) = false).
  { apply andb_false_iff. rewrite !Z.eqb_neq. tauto. }
  destruct c; try done; cbn [exec]; unfold set_game_mode, set_first_serve;
    rewrite Hg; apply IH.
Qed.

Lemma C8_configuration_locked_mid_game_witness :
  run [call_set_game_mode to_21; call_set_first_serve p2; call_set_game_mode to_11]
      (run [call_p2_score] init)
  = run [call_p2_score] init.
Proof.
  apply C8_configuration_locked_mid_game.
  - right. by vm_compute.
  - repeat constructor.
Defined.

(** C9.  At 0-0 [set_game_mode] stores its argument in [mode] and
    [set_first_serve] stores its argument in [first_serve], whatever
    the games won; in particular right after a point that won a game. *)
Theorem C9_configuration_open_at_zero_zero (e : t) (m : game_mode) (p : serve_player) :
  (get_p1_score e = 0 -> get_p2_score e = 0 ->
   _state (set_game_mode m e) = game_state.set_mode m (_state e) /\
   _state (set_first_serve p e) = game_state.set_first_serve p (_state e)) /\
  (forall x, reachable e -> win_condition x (add_point x (_state e)) ->
   games_won_of x (_state (score_point x e)) = games_won_of x (_state e) + 1 /\
   game_state.mode (_state (set_game_mode m (score_point x e))) = m /\
   game_state.first_serve (_state (set_first_serve p (score_point x e))) = p).
Proof.
  split.
  - intros E1 E2. unfold set_game_mode, set_first_serve. by rewrite E1, E2.
  - intros x Hr Hw. apply reachable_wf in Hr as (_ & Ho & _).
    pose proof (add_point_other x _ Ho) as Hother.
    unfold set_game_mode, set_first_serve, get_p1_score, get_p2_score.
    destruct (score_point_state x e) as [[H E]|[(H1 & H2 & E)|(H1 & H2 & E)]];
      rewrite E; clear E; destruct x; cbn in *; try tauto;
      destruct (_state e); done.
Qed.

Lemma C9_configuration_open_at_zero_zero_witness :
  let e := run (replicate 10 call_p1_score) init in
  let e' := score_point p1 e in
  (games_won_of p1 (_state e') = games_won_of p1 (_state e) + 1 /\
   game_state.mode (_state (set_game_mode to_21 e')) = to_21 /\
   game_state.first_serve (_state (set_first_serve p2 e')) = p2) /\
  (_state (set_game_mode to_21 e') = game_state.set_mode to_21 (_state e') /\
   _state (set_first_serve p2 e') = game_state.set_first_serve p2 (_state e')).
Proof.
  cbn zeta. split.
  - apply (proj2 (C9_configuration_open_at_zero_zero
                    (run (replicate 10 call_p1_score) init) to_21 p2) p1).
    + apply reachable_run, reachable_init.
    + vm_compute. right. split; [intros [_ H]; by apply H | discriminate].
  - apply (proj1 (C9_configuration_open_at_zero_zero
                    (score_point p1 (run (replicate 10 call_p1_score) init)) to_21 p2));
      vm_compute; reflexivity.
Defined.

End scoring.

(* ================================================================= *)
(** ** The debounced button *)
(* ================================================================= *)

Section button.
Import avr_button.

Lemma classify_not_none pin read : classify pin read <> none.
Proof. unfold classify. by destruct (pull_up pin), read. Qed.

Lemma check_states read b :
  _states (check read b).1 =
    <[Z.to_nat (Z.rem (_counter b) 3) := classify (_input_pin b) read]> (_states b)
  /\ _counter (check read b).1 = to_uint8 (_counter b + 1)
  /\ _input_pin (check read b).1 = _input_pin b.
Proof.
  unfold check. fold (classify (_input_pin b) read).
  repeat case_decide; done.
Qed.

Lemma check_edge read b :
  _current_action b <> none ->
  Forall (fun s => s <> none) (_states (check read b).1) ->
  let b' := (check read b).1 in
  let a := (check read b).2 in
  (a <> none <-> exists s, slots_agree b' s /\ s <> _current_action b) /\
  (a <> none -> _current_action b' = a /\ slots_agree b' a) /\
  (a = none -> _current_action b' = _current_action b).
Proof.
  cbn zeta. unfold check, slots_agree. fold (classify (_input_pin b) read).
  set (l := <[_ := _]> (_states b)). cbn [_states _current_action fst snd].
  intros Hc Hl.
  destruct (decide (l !! 0%nat = l !! 1%nat /\ l !! 1%nat = l !! 2%nat)) as [[E1 E2]|Hne].
  - destruct (decide (l !! 0%nat = Some pressed /\ _current_action b = released))
      as [[Ep Er]|Hnp]; [|destruct (decide (l !! 0%nat = Some released
                                           /\ _current_action b = pressed))
                            as [[Er Ep]|Hnr]];
      cbn [_states _current_action fst snd].
    + rewrite <- E2, <- E1, Ep, Er. split; [|done].
      split; [intros _; by exists pressed | done].
    + rewrite <- E2, <- E1, Er, Ep. split; [|done].
      split; [intros _; by exists released | done].
    + split; [|done]. split; [done|]. intros (s & (E0 & _ & _) & Hs). exfalso.
      assert (Hn : s <> none).
      { eapply (proj1 (Forall_lookup _ l) Hl); eauto. }
      destruct s, (_current_action b); try done; [apply Hnp | apply Hnr]; done.
  - cbn [_states _current_action fst snd]. split; [|done]. split; [done|].
    intros (s & (E0 & E1 & E2) & _). exfalso. apply Hne. by rewrite E0, E1, E2.
Qed.

Lemma check_ok pin read b : button_ok pin b -> button_ok pin (check read b).1.
Proof.
  intros (Hp & Hc & Hlen & Hs & Hcur).
  destruct (check_states read b) as (Es & Ec & Ep).
  assert (Hs' : Forall (fun s => s <> none) (_states (check read b).1)).
  { rewrite Es. apply Forall_insert; [done | apply classify_not_none]. }
  split; [congruence|]. split; [rewrite Ec; unfold to_uint8; by apply Z.mod_pos_bound|].
  split; [by rewrite Es, length_insert|]. split; [done|].
  destruct (check_edge read b Hcur Hs') as (_ & Hedge & Hnone).
  destruct ((check read b).2) eqn:Ea.
  - by rewrite Hnone.
  - by rewrite (proj1 (Hedge ltac:(done))).
  - by rewrite (proj1 (Hedge ltac:(done))).
Qed.

Lemma reachable_ok pin b : reachable pin b -> button_ok pin b.
Proof.
  induction 1 as [|read b _ IH]; [|by apply check_ok].
  repeat split; cbn; try lia; try done. repeat constructor; done.
Qed.

(** C6.  Whatever the samples fed to [check] so far, a call returns an
    edge (a value other than [none]) if and only if, once its sample
    is stored, the three slots hold one and the same state and that
    state differs from the latched one.  The latched state then becomes
    that state; [pressed] is returned exactly on a change from released
    to pressed and [released] exactly on a change from pressed to
    released.  Every other call returns [none] and leaves the latched
    state as it is. *)
Theorem C6_edge_iff_stable_and_different
    (pin : avr_digital_input_pin) (b : t) (read : bool) :
  reachable pin b ->
  let b' := (check read b).1 in
  let a := (check read b).2 in
  _states b' = <[Z.to_nat (_counter b `mod` 3) := classify pin read]> (_states b) /\
  (a <> none <-> exists s, slots_agree b' s /\ s <> _current_action b) /\
  (a <> none -> slots_agree b' a /\ _current_action b' = a) /\
  (a = pressed <-> _current_action b = released /\ _current_action b' = pressed) /\
  (a = released <-> _current_action b = pressed /\ _current_action b' = released) /\
  (a = none -> _current_action b' = _current_action b).
Proof.
  intros Hr. pose proof (reachable_ok _ _ Hr) as Hok.
  pose proof (check_ok _ read _ Hok) as (_ & _ & _ & Hs' & Hcur').
  destruct Hok as (Hp & Hc & Hlen & Hs & Hcur).
  destruct (check_states read b) as (Es & _ & _).
  destruct (check_edge read b Hcur Hs') as (Hiff & Hedge & Hnone).
  cbn zeta. split; [by rewrite Es, Hp, Z.rem_mod_nonneg by lia|].
  split; [done|]. split; [intros Ha; by destruct (Hedge Ha)|].
  destruct ((check read b).2) eqn:Ea.
  - specialize (Hnone eq_refl). rewrite Hnone.
    repeat split; try done; intros [? ?]; congruence.
  - destruct Hiff as [Hiff _]. destruct Hiff as (s & Hag & Hne); [done|].
    destruct (Hedge ltac:(done)) as (Ec & Hag').
    assert (s = pressed) as -> by (destruct Hag as [E0 _], Hag' as [E0' _]; congruence).
    rewrite Ec. repeat split; try done; try (intros [? ?]; congruence).
    by destruct (_current_action b).
  - destruct Hiff as [Hiff _]. destruct Hiff as (s & Hag & Hne); [done|].
    destruct (Hedge ltac:(done)) as (Ec & Hag').
    assert (s = released) as -> by (destruct Hag as [E0 _], Hag' as [E0' _]; congruence).
    rewrite Ec. repeat split; try done; try (intros [? ?]; congruence).
    by destruct (_current_action b).
Qed.

Lemma C6_edge_iff_stable_and_different_witness :
  let b := (check false (check false (init undo_switch)).1).1 in
  (check false b).2 = pressed /\
  (_current_action b = released /\ _current_action (check false b).1 = pressed).
Proof.
  cbn zeta. split; [reflexivity|].
  apply (C6_edge_iff_stable_and_different undo_switch _ false).
  - repeat apply reachable_check. apply reachable_init.
  - reflexivity.
Defined.

End button.

(* ================================================================= *)
(** ** The multiplexed display *)
(* ================================================================= *)

Section display.
Import avr_seven_segment_display.

Lemma remaining_0 value : remaining value 0 = value.
Proof. unfold remaining. cbn. by rewrite Z.div_1_r. Qed.

Lemma remaining_S value i : remaining value (S i) = remaining value i `div` 10.
Proof.
  unfold remaining. rewrite Nat2Z.inj_succ, Z.pow_succ_r by lia.
  rewrite Z.mul_comm, Z.div_div; [done| |lia]. apply Z.pow_nonzero; lia.
Qed.

Lemma remaining_bound value i : 0 <= value < 256 -> 0 <= remaining value i < 256.
Proof.
  intros Hv. unfold remaining.
  assert (0 < 10 ^ Z.of_nat i) by (apply Z.pow_pos_nonneg; lia).
  split; [apply Z.div_pos; lia|].
  apply Z.le_lt_trans with value; [|lia]. apply Z.div_le_upper_bound; nia.
Qed.

Lemma display_decimal_body_spec value decimal_point i st :
  0 <= value < 256 ->
  display_decimal_body decimal_point (remaining value i, st) i =
  (remaining value (S i), show_digit decimal_point i (digit_glyph value decimal_point i) st).
Proof.
  intros Hv. pose proof (remaining_bound value i Hv) as Hr.
  rewrite remaining_S. destruct st as [d w].
  unfold display_decimal_body, show_digit, digit_glyph.
  set (r := remaining value i) in *.
  destruct (Z.eqb_spec r 0) as [E|E]; cbn [negb].
  - rewrite decide_False by (intros ?; done). rewrite E.
    change (0 `div` 10) with 0.
    destruct (Z.eqb_spec (Z.of_nat i) 0) as [E0|E0]; cbn [orb].
    { rewrite decide_True by (left; lia). by destruct (Z.of_nat i =? decimal_point). }
    destruct (Z.geb_spec decimal_point 0) as [Ed|Ed]; cbn [andb].
    + destruct (Z.leb_spec (Z.of_nat i) decimal_point).
      * rewrite decide_True by (right; lia). by destruct (Z.of_nat i =? decimal_point).
      * rewrite decide_False by lia. by destruct (Z.of_nat i =? decimal_point).
    + rewrite decide_False by lia. by destruct (Z.of_nat i =? decimal_point).
  - rewrite decide_True by done.
    assert (Hq : to_uint8 (r `quot` 10) = r `div` 10).
    { unfold to_uint8. rewrite Z.quot_div_nonneg by lia.
      apply Z.mod_small. split; [apply Z.div_pos; lia|].
      apply Z.div_lt_upper_bound; lia. }
    assert (Hm : (to_uint8 (r `rem` 10)) `rem` 10 = r `mod` 10).
    { unfold to_uint8. rewrite !Z.rem_mod_nonneg; try lia.
      - pose proof (Z.mod_pos_bound r 10). rewrite (Z.mod_small (r `mod` 10) 256) by lia.
        apply Z.mod_mod. lia.
      - apply Z.mod_pos_bound. lia. }
    rewrite Hq. unfold avr_seven_segment_pins.display_decimal. rewrite Hm.
    by destruct (Z.of_nat i =? decimal_point).
Qed.

Lemma display_decimal_loop value decimal_point n : forall k st,
  0 <= value < 256 ->
  foldl (display_decimal_body decimal_point) (remaining value k, st) (seq k n) =
  (remaining value (k + n),
   foldl (fun st i => show_digit decimal_point i (digit_glyph value decimal_point i) st)
         st (seq k n)).
Proof.
  induction n as [|n IH]; intros k st Hv.
  - by rewrite Nat.add_0_r.
  - cbn [seq foldl]. rewrite display_decimal_body_spec, IH by done.
    by replace (S k + n)%nat with (k + S n)%nat by lia.
Qed.

Lemma display_decimal_unfold value decimal_point d w :
  0 <= value < 256 ->
  display_decimal value decimal_point d w =
  show_digits decimal_point (digit_glyph value decimal_point)
    (Z.to_nat (num_digits_t d)) (d, clear_digits d w).
Proof.
  intros Hv. unfold display_decimal, show_digits.
  rewrite <- (remaining_0 value) at 1. by rewrite display_decimal_loop.
Qed.

Lemma show_digits_ext decimal_point (f g : nat -> Z) n st :
  (forall i, (i < n)%nat -> f i = g i) ->
  show_digits decimal_point f n st = show_digits decimal_point g n st.
Proof.
  unfold show_digits. revert st. induction n as [|n IH]; intros st Hfg; [done|].
  rewrite seq_S, !foldl_app. cbn [foldl plus].
  rewrite IH by (intros; apply Hfg; lia). by rewrite Hfg by lia.
Qed.

(** C7.  On a display of [num_digits_t] digits, [display_decimal]
    clears the digit selects and then serves the digits in increasing
    order, digit [i] showing: the glyph of the remaining value modulo
    ten while the remaining value is nonzero; else the glyph of zero
    when [i] is zero or a decimal point is requested and [i] is not
    past it; else the blank pattern. *)
Theorem C7_display_decimal_digit_rule
    (d : t) (value decimal_point : Z) (w : trace) :
  0 <= value < 256 ->
  display_decimal value decimal_point d w =
  show_digits decimal_point (digit_glyph value decimal_point)
    (Z.to_nat (num_digits_t d)) (d, clear_digits d w).
Proof. apply display_decimal_unfold. Qed.

Lemma C7_display_decimal_digit_rule_witness :
  display_decimal 7 (-1) p1_score_display [] =
  show_digits (-1) (digit_glyph 7 (-1)) 2 (p1_score_display, clear_digits p1_score_display [])
  /\ digit_glyph 7 (-1) 0 = sevseg 7 /\ digit_glyph 7 (-1) 1 = 0
  /\ digit_glyph 0 (-1) 0 = sevseg 0 /\ digit_glyph 0 1 1 = sevseg 0
  /\ digit_glyph 0 1 2 = 0.
Proof.
  split; [|repeat split; reflexivity].
  apply (C7_display_decimal_digit_rule p1_score_display 7 (-1) []). lia.
Defined.

(** Below the top digit, a decimal digit of [value] is the same digit of
    [value] reduced modulo [10 ^ n]. *)
Lemma digit_mod_pow (value n : Z) (i : nat) :
  Z.of_nat i < n ->
  (value `div` 10 ^ Z.of_nat i) `mod` 10
  = ((value `mod` 10 ^ n) `div` 10 ^ Z.of_nat i) `mod` 10.
Proof.
  intros Hi. set (k := Z.of_nat i) in *. assert (0 <= k) by lia.
  assert (Hp : 10 ^ n = 10 ^ k * (10 * 10 ^ (n - k - 1))).
  { rewrite <- Z.pow_succ_r, <- Z.pow_add_r by lia. f_equal. lia. }
  assert (Hk : 10 ^ k <> 0) by (apply Z.pow_nonzero; lia).
  rewrite (Z.mod_eq value (10 ^ n)) by (apply Z.pow_nonzero; lia).
  rewrite Hp at 1.
  replace (value - 10 ^ k * (10 * 10 ^ (n - k - 1)) * (value `div` 10 ^ n))
    with (value + (- (10 ^ (n - k - 1) * (value `div` 10 ^ n)) * 10) * 10 ^ k) by lia.
  rewrite Z.div_add by done. by rewrite Z.mod_add by lia.
Qed.

(** C10.  When [value] has more decimal digits than the display has
    places, [display_decimal] shows the low [num_digits_t] digits of
    [value], that is the digits of [value mod 10 ^ num_digits_t], each
    through the entry (digit mod 10) of the table of 16 patterns; the
    quotient left after the last place is dropped. *)
Theorem C10_display_decimal_keeps_low_digits
    (d : t) (value decimal_point : Z) (w : trace) :
  10 ^ num_digits_t d <= value < 256 ->
  length SEVSEG = 16%nat /\
  display_decimal value decimal_point d w =
  show_digits decimal_point
    (fun i => sevseg (((value `mod` 10 ^ num_digits_t d) `div` 10 ^ Z.of_nat i) `mod` 10))
    (Z.to_nat (num_digits_t d)) (d, clear_digits d w).
Proof.
  intros [Hlo Hhi]. split; [reflexivity|].
  assert (Hv : 0 <= value) by (pose proof (Z.pow_nonneg 10 (num_digits_t d)); lia).
  rewrite display_decimal_unfold by lia.
  apply show_digits_ext. intros i Hi.
  unfold digit_glyph, remaining.
  assert (Hpow : 10 ^ Z.of_nat i <= 10 ^ num_digits_t d)
    by (apply Z.pow_le_mono_r; lia).
  assert (Hpos : 0 < 10 ^ Z.of_nat i) by (apply Z.pow_pos_nonneg; lia).
  rewrite decide_True.
  - by rewrite (digit_mod_pow value (num_digits_t d)) by lia.
  - pose proof (Z.div_str_pos value (10 ^ Z.of_nat i)). lia.
Qed.

Lemma C10_display_decimal_keeps_low_digits_witness :
  display_decimal 123 (-1) p1_score_display [] =
  show_digits (-1) (fun i => sevseg (((123 `mod` 10 ^ 2) `div` 10 ^ Z.of_nat i) `mod` 10))
    2 (p1_score_display, clear_digits p1_score_display []).
Proof.
  apply (proj2 (C10_display_decimal_keeps_low_digits p1_score_display 123 (-1) []
                  ltac:(cbn; lia))).
Defined.

(** Past the boundary the guard of [display_custom] holds. *)
Lemma display_custom_beyond (mask digit : Z) (d : t) (w : trace) :
  num_digits_t d < digit -> display_custom mask digit d w = (d, w).
Proof.
  intros Hd. unfold display_custom.
  destruct (Z.leb_spec digit (num_digits_t d)); [lia | done].
Qed.

(** At the boundary it does not. *)
Lemma display_custom_boundary (mask : Z) (d : t) (w : trace) :
  length (_digits d) = Z.to_nat (num_digits_t d) -> 0 <= num_digits_t d ->
  display_custom mask (num_digits_t d) d w =
  (with_seg (avr_seven_segment_pins.display_custom mask (_seg d) (clear_digits d w)).1 d,
   (avr_seven_segment_pins.display_custom mask (_seg d) (clear_digits d w)).2
   ++ [ev_digits_out_of_bounds (Z.to_nat (num_digits_t d))]).
Proof.
  intros Hl Hn. unfold display_custom. rewrite Z.leb_refl.
  cbn. unfold digit_set. cbn.
  by rewrite lookup_ge_None_2 by lia.
Qed.

(** C5 at its boundary.  On the two digit score display the call
    [display_custom(0xFF, 2)] passes the guard [digit <= num_digits_t]:
    it clears both digit selects, writes the pattern to the segment
    pins and reads [_digits[2]], one cell past the end of the array. *)
Theorem C5_display_custom_at_digit_count :
  display_custom 255 2 p1_score_display [] =
  (with_seg (avr_seven_segment_pins.mk (avr_seven_segment_pins._segs seven_segment_pins) 255)
     p1_score_display,
   [ev_set avr_io_bank_b 1 false; ev_set avr_io_bank_b 2 false;
    ev_set avr_io_bank_d 0 true; ev_set avr_io_bank_d 1 true;
    ev_set avr_io_bank_d 2 true; ev_set avr_io_bank_d 3 true;
    ev_set avr_io_bank_d 4 true; ev_set avr_io_bank_d 5 true;
    ev_set avr_io_bank_d 6 true; ev_digits_out_of_bounds 2]) /\
  display_custom 255 2 p1_score_display [] <> (p1_score_display, []).
Proof. split; [reflexivity | discriminate]. Qed.

End display.

(* ================================================================= *)
(** ** More on the scoring engine *)
(* ================================================================= *)

Section scoring_more.
Import table_tennis.

(** A property of game states that the scoring calls and the setters
    keep holds of the current state and of every state kept for undo. *)
Lemma reachable_state_ind (P : game_state.t -> Prop) :
  P game_state.initial ->
  (forall e x, reachable e -> P (_state e) -> P (_state (score_point x e))) ->
  (forall e m, reachable e -> P (_state e) -> P (_state (set_game_mode m e))) ->
  (forall e p, reachable e -> P (_state e) -> P (_state (set_first_serve p e))) ->
  forall e, reachable e -> P (_state e) /\ Forall P (history_view e).
Proof.
  intros Hinit Hscore Hmode Hfirst. induction 1 as [|c e Hr [IHs IHv]].
  - split; [done | constructor].
  - pose proof (reachable_wf e Hr) as (Hok & _ & _).
    assert (Hsc : forall x, P (_state (score_point x e))
                            /\ Forall P (history_view (score_point x e))).
    { intros x. split; [by apply Hscore|].
      rewrite score_point_view, save_state_view by done.
      apply Forall_app. split; [|by constructor].
      destruct (_ =? _); [by apply Forall_drop | done]. }
    destruct c; cbn [exec].
    + apply (Hsc p1).
    + apply (Hsc p2).
    + destruct (snoc_cases (history_view e)) as [Ev|(v0 & s0 & Ev)].
      * rewrite undo_empty; done.
      * destruct (undo_snoc e _ _ Hok Ev) as (Es & Ew & _).
        rewrite Ev in IHv. apply Forall_app in IHv as [Hv Hs].
        rewrite Es, Ew. split; [by inversion Hs | done].
    + split; [by apply Hmode|].
      unfold set_game_mode. by destruct (_ && _).
    + split; [by apply Hfirst|].
      unfold set_first_serve. by destruct (_ && _).
Qed.

(** X1.  In every reachable state the games won are not negative; in
    deuce the scores differ by at most one; outside deuce both scores
    lie between zero and the target of the mode.  The state the
    displays are fed with is never a finished game. *)
Theorem reachable_game_in_progress (e : t) :
  reachable e ->
  let s := _state e in
  0 <= game_state.p1_games_won s /\ 0 <= game_state.p2_games_won s /\
  (in_deuce s -> -1 <= game_state.p1_score s - game_state.p2_score s <= 1) /\
  (~ in_deuce s ->
   0 <= game_state.p1_score s < target (game_state.mode s) /\
   0 <= game_state.p2_score s < target (game_state.mode s)).
Proof.
  intros Hr. cbn zeta.
  assert (G : 0 <= game_state.p1_games_won (_state e)
              /\ 0 <= game_state.p2_games_won (_state e)).
  { apply (reachable_state_ind
             (fun s => 0 <= game_state.p1_games_won s /\ 0 <= game_state.p2_games_won s));
      [by vm_compute| | | | done].
    - intros e' x _ Hs.
      destruct (score_point_state x e') as [[_ ->]|[(_ & _ & ->)|(_ & _ & ->)]];
        destruct (_state e'), x; cbn in *; lia.
    - intros e' m _ Hs. unfold set_game_mode. by destruct (_ && _).
    - intros e' p _ Hs. unfold set_first_serve. by destruct (_ && _). }
  apply reachable_wf in Hr as (_ & Ho & _).
  split; [tauto|]. split; [tauto|].
  destruct (_state e) as [g1 s1 g2 s2 f m].
  unfold game_open, win_condition, in_deuce, target, deuce_threshold, score_of, other in *.
  cbn in *. destruct m; cbn in *; split; intros; lia.
Qed.

Lemma reachable_game_in_progress_witness :
  let e := run deuce_10_10 init in
  -1 <= game_state.p1_score (_state e) - game_state.p2_score (_state e) <= 1.
Proof.
  cbn zeta.
  apply (proj1 (proj2 (proj2 (reachable_game_in_progress (run deuce_10_10 init)
                                (reachable_run _ _ reachable_init))))).
  vm_compute. split; discriminate.
Defined.

(** X2.  In every reachable state the history array has its 32 cells
    and the index lies between -1 and 31, so [save_state] and [undo]
    never leave the array; every entry kept for undo is the game state
    of some reachable state. *)
Theorem reachable_history_in_bounds (e : t) :
  reachable e ->
  length (_history e) = 32%nat /\ -1 <= _history_index e <= 31 /\
  Forall (fun s => exists e', reachable e' /\ _state e' = s) (history_view e).
Proof.
  intros Hr. pose proof (reachable_wf e Hr) as ([Hl Hi] & _ & _).
  unfold MAX_UNDO in *. split; [by rewrite Hl|]. split; [lia|].
  apply (reachable_state_ind (fun s => exists e', reachable e' /\ _state e' = s)); [| | | |done].
  - exists init. split; [constructor | done].
  - intros e0 x Hr0 _. exists (score_point x e0). split; [|done].
    destruct x; [apply (reachable_exec call_p1_score) | apply (reachable_exec call_p2_score)]; done.
  - intros e0 m Hr0 _. exists (set_game_mode m e0).
    split; [by apply (reachable_exec (call_set_game_mode m)) | done].
  - intros e0 p Hr0 _. exists (set_first_serve p e0).
    split; [by apply (reachable_exec (call_set_first_serve p)) | done].
Qed.

Lemma reachable_history_in_bounds_witness :
  let e := run (replicate 40 call_p1_score) init in
  length (_history e) = 32%nat /\ -1 <= _history_index e <= 31.
Proof.
  cbn zeta.
  destruct (reachable_history_in_bounds _
              (reachable_run (replicate 40 call_p1_score) _ reachable_init))
    as (H1 & H2 & _).
  exact (conj H1 H2).
Defined.

Lemma score_points_snoc xs x e :
  score_points (xs ++ [x]) e = score_point x (score_points xs e).
Proof. unfold score_points. by rewrite foldl_app. Qed.

(** An entry of the history survives the scoring calls that follow as
    long as fewer than [MAX_UNDO] entries are stacked on it. *)
Lemma score_points_keep xs : forall e pre s post,
  history_ok e -> history_view e = pre ++ s :: post ->
  (length post + length xs <= 31)%nat ->
  history_ok (score_points xs e) /\
  exists pre' post',
    history_view (score_points xs e) = pre' ++ s :: post' /\
    length post' = (length post + length xs)%nat.
Proof.
  induction xs as [|x xs IH]; intros e pre s post Hok Hv Hlen.
  - split; [done|]. exists pre, post. split; [done | cbn; lia].
  - change (score_points (x :: xs) e) with (score_points xs (score_point x e)).
    cbn [length] in Hlen.
    pose proof (history_view_length e Hok) as Hl.
    assert (Hv' : exists pre', history_view (score_point x e)
                               = pre' ++ s :: (post ++ [_state e])).
    { rewrite score_point_view, save_state_view by done. rewrite Hv.
      unfold MAX_UNDO. destruct (Z.eqb_spec (_history_index e) (32 - 1)) as [Ei|Ei].
      - destruct pre as [|y pre].
        + exfalso. rewrite Hv in Hl. cbn in Hl. lia.
        + exists pre. change (drop 1 ((y :: pre) ++ s :: post)) with (pre ++ s :: post).
          by rewrite <- app_assoc.
      - exists pre. by rewrite <- app_assoc. }
    destruct Hv' as [pre' Hv'].
    destruct (IH (score_point x e) pre' s (post ++ [_state e])) as (Hok' & p & q & E & Hq).
    { by apply score_point_ok. }
    { done. }
    { rewrite length_app. cbn. lia. }
    split; [done|]. exists p, q. split; [done|].
    rewrite Hq, length_app. cbn. lia.
Qed.

(** Undoing down to any entry of the history brings that entry back. *)
Lemma undos_view n : forall e pre s post,
  history_ok e -> history_view e = pre ++ s :: post -> length post = n ->
  _state (undos (S n) e) = s /\ history_view (undos (S n) e) = pre
  /\ history_ok (undos (S n) e).
Proof.
  unfold undos. induction n as [|n IH]; intros e pre s post Hok Hv Hn.
  - destruct post; [|done]. cbn. by apply (undo_snoc e pre s).
  - rewrite Nat.iter_succ_r.
    destruct (snoc_cases post) as [->|(post' & s' & ->)]; [done|].
    rewrite length_app in Hn. cbn in Hn.
    assert (Hv' : history_view e = (pre ++ s :: post') ++ [s'])
      by (by rewrite Hv, <- app_assoc).
    destruct (undo_snoc e _ s' Hok Hv') as (_ & Hv'' & Hok').
    apply (IH _ _ _ post'); [done|done|lia].
Qed.

(** X3.  From a reachable state, up to 32 scoring calls followed by as
    many calls of [undo] give back the game state they started from,
    also when the history was full and old entries were evicted. *)
Theorem score_points_undos_round_trip (e : t) (xs : list serve_player) :
  reachable e -> (length xs <= 32)%nat ->
  _state (undos (length xs) (score_points xs e)) = _state e.
Proof.
  intros Hr Hlen. pose proof (reachable_wf e Hr) as (Hok & _ & _).
  destruct xs as [|x xs]; [done|].
  change (score_points (x :: xs) e) with (score_points xs (score_point x e)).
  cbn [length] in *.
  assert (Hv : exists pre, history_view (score_point x e) = pre ++ _state e :: []).
  { rewrite score_point_view, save_state_view by done. eauto. }
  destruct Hv as [pre Hv].
  destruct (score_points_keep xs (score_point x e) pre (_state e) [])
    as (Hok' & p & q & E & Hq); [by apply score_point_ok | done | cbn; lia |].
  cbn in Hq. rewrite <- Hq.
  by apply (undos_view (length q) _ p (_state e) q).
Qed.

Lemma score_points_undos_round_trip_witness :
  let e := run (replicate 40 call_p2_score) init in
  _state (undos 32 (score_points (replicate 32 p1) e)) = _state e.
Proof.
  cbn zeta.
  apply (score_points_undos_round_trip
           (run (replicate 40 call_p2_score) init) (replicate 32 p1)).
  - apply reachable_run, reachable_init.
  - vm_compute. lia.
Defined.

(** [undo] counts the index down and stops at the empty history. *)
Lemma undos_index n : forall e,
  history_ok e ->
  _history_index (undos n e) = Z.max (-1) (_history_index e - Z.of_nat n)
  /\ history_ok (undos n e).
Proof.
  unfold undos. induction n as [|n IH]; intros e Hok.
  - cbn. destruct Hok as [? ?]. split; [lia | done].
  - rewrite Nat.iter_succ_r.
    assert (Hu : history_ok (undo e) /\
                 _history_index (undo e) = Z.max (-1) (_history_index e - 1)).
    { destruct Hok as [Hl Hi]. unfold undo, history_ok.
      destruct (Z.geb_spec (_history_index e) 0); cbn; split; try done; lia. }
    destruct Hu as [Hok' Hi']. destruct (IH (undo e) Hok') as [E Hok''].
    split; [|done]. rewrite E, Hi'. lia.
Qed.

(** X4.  Thirty-two calls of [undo] (or more) empty the history of any
    reachable state: the index is -1 and one more [undo] changes
    nothing. *)
Theorem undo_saturates (e : t) (n : nat) :
  reachable e -> (32 <= n)%nat ->
  _history_index (undos n e) = -1 /\ undo (undos n e) = undos n e.
Proof.
  intros Hr Hn. pose proof (reachable_wf e Hr) as (Hok & _ & _).
  destruct (undos_index n e Hok) as [E _].
  assert (Ei : _history_index (undos n e) = -1).
  { destruct Hok as [_ Hi]. unfold MAX_UNDO in Hi. lia. }
  split; [done|]. unfold undo. by rewrite Ei.
Qed.

Lemma undo_saturates_witness :
  let e := run (replicate 40 call_p2_score) init in
  _history_index (undos 32 e) = -1 /\ undo (undos 32 e) = undos 32 e.
Proof.
  cbn zeta. apply undo_saturates; [apply reachable_run, reachable_init | lia].
Defined.

Lemma score_points_index xs : forall e,
  history_ok e ->
  _history_index (score_points xs e)
  = Z.min (MAX_UNDO - 1) (_history_index e + Z.of_nat (length xs)).
Proof.
  induction xs as [|x xs IH]; intros e Hok.
  - cbn. destruct Hok as [_ Hi]. lia.
  - change (score_points (x :: xs) e) with (score_points xs (score_point x e)).
    rewrite IH by by apply score_point_ok.
    destruct (score_point_history x e) as [_ ->].
    destruct Hok as [_ Hi]. unfold save_state, MAX_UNDO in *. cbn [length].
    destruct (Z.eqb_spec (_history_index e) (32 - 1)); cbn; lia.
Qed.

(** X5.  Scoring calls stack one entry each on the history until it
    holds 32 of them: the index after [n] calls is the smaller of 31
    and the old index plus [n]. *)
Theorem history_depth_after_scoring (e : t) (xs : list serve_player) :
  reachable e ->
  _history_index (score_points xs e)
  = Z.min 31 (_history_index e + Z.of_nat (length xs)).
Proof. intros Hr. apply score_points_index. by apply reachable_wf in Hr as [? _]. Qed.

Lemma history_depth_after_scoring_witness :
  _history_index (score_points (replicate 40 p1) init) = Z.min 31 (-1 + 40).
Proof. apply (history_depth_after_scoring init (replicate 40 p1)), reachable_init. Defined.

(** X6.  The point that wins a game hands the serve to the player named
    by [first_serve]: every game of a match starts with the same
    server. *)
Theorem first_server_serves_after_a_win (e : t) (x : serve_player) :
  reachable e -> win_condition x (add_point x (_state e)) ->
  serve (score_point x e) = game_state.first_serve (_state e).
Proof.
  intros Hr Hw. pose proof (reachable_wf e Hr) as (_ & Ho & _).
  pose proof (add_point_other x _ Ho) as Hother.
  assert (Hz : game_state.p1_score (_state (score_point x e)) = 0 /\
               game_state.p2_score (_state (score_point x e)) = 0 /\
               game_state.first_serve (_state (score_point x e))
               = game_state.first_serve (_state e)).
  { destruct (score_point_state x e) as [[H E]|[(H1 & H2 & E)|(H1 & H2 & E)]];
      rewrite E; clear E; destruct x; cbn in *; try tauto; by destruct (_state e). }
  destruct Hz as (E1 & E2 & Ef).
  rewrite serve_refines by (unfold get_p1_score, get_p2_score; lia).
  by rewrite serve_spec_zero.
Qed.

Lemma first_server_serves_after_a_win_witness :
  let e := run (call_set_first_serve p2 :: replicate 10 call_p1_score) init in
  serve e = p1 /\ serve (score_point p1 e) = p2.
Proof.
  cbn zeta. split; [by vm_compute|].
  rewrite (first_server_serves_after_a_win
             (run (call_set_first_serve p2 :: replicate 10 call_p1_score) init) p1).
  - by vm_compute.
  - apply reachable_run, reachable_init.
  - vm_compute. right. split; [intros [_ H]; by apply H | discriminate].
Defined.

(** X7.  The setters are not recorded in the history: with a snapshot to
    go back to, [undo] after [set_game_mode] or [set_first_serve] gives
    exactly what [undo] alone gives, the change of configuration
    included in what is thrown away. *)
Theorem undo_discards_configuration (e : t) (m : game_mode) (p : serve_player) :
  reachable e -> 0 <= _history_index e ->
  undo (set_game_mode m e) = undo e /\ undo (set_first_serve p e) = undo e.
Proof.
  intros Hr Hi. pose proof (reachable_wf e Hr) as ([Hl Hb] & _ & _).
  unfold MAX_UNDO in *.
  destruct (lookup_lt_is_Some_2 (_history e) (Z.to_nat (_history_index e))) as [s Hs];
    [lia|].
  unfold undo, set_game_mode, set_first_serve.
  destruct (_ && _); cbn; destruct (Z.geb_spec (_history_index e) 0); try lia;
    by rewrite Hs.
Qed.

Lemma undo_discards_configuration_witness :
  let e := run (replicate 11 call_p1_score) init in
  game_state.mode (_state (set_game_mode to_21 e)) = to_21 /\
  undo (set_game_mode to_21 e) = undo e /\ undo (set_first_serve p2 e) = undo e.
Proof.
  cbn zeta. split; [by vm_compute|].
  apply undo_discards_configuration; [apply reachable_run, reachable_init | by vm_compute].
Defined.



Lemma div_succ (t k : Z) :
  0 <= t -> 0 < k ->
  (t + 1) `div` k = t `div` k + (if decide ((t + 1) `mod` k = 0) then 1 else 0).
Proof.
  intros Ht Hk.
  pose proof (Z.div_mod t k ltac:(lia)). pose proof (Z.mod_pos_bound t k Hk).
  pose proof (Z.div_mod (t + 1) k ltac:(lia)). pose proof (Z.mod_pos_bound (t + 1) k Hk).
  case_decide; nia.
Qed.

Lemma even_flip (fs : serve_player) (a b : bool) :
  (if a then fs else other fs) <> (if b then fs else other fs) <-> a <> b.
Proof. destruct a, b, fs; cbn; split; intros H; try done; by intros ?. Qed.

(** X9.  Outside deuce, a point that does not end the game changes the
    server exactly when the new total is a multiple of the serve
    interval of the mode (2 or 5), the point that makes it 10-10 or
    20-20 included. *)
Theorem serve_changes_on_interval_boundary (e : t) (x : serve_player) :
  reachable e ->
  let s := _state e in
  ~ in_deuce s -> ~ win_condition x (add_point x s) ->
  (serve (score_point x e) <> serve e <->
   (game_state.p1_score s + game_state.p2_score s + 1) `mod` serve_interval s = 0).
Proof.
  intros Hr. cbn zeta. intros Hd Hw.
  pose proof (reachable_wf e Hr) as (_ & Ho & _).
  pose proof (add_point_other x _ Ho) as Hother.
  pose proof (score_point_open x e Ho) as Ho'.
  assert (Es : _state (score_point x e) = add_point x (_state e)).
  { destruct (score_point_state x e) as [[H E]|[(H1 & H2 & E)|(H1 & H2 & E)]];
      destruct x; cbn in *; tauto. }
  rewrite !serve_refines;
    try (destruct Ho, Ho'; unfold get_p1_score, get_p2_score; tauto).
  rewrite Es. clear Es Ho'.
  unfold serve_spec, intervals_elapsed, serve_interval.
  rewrite (decide_False (P := in_deuce (_state e))) by done.
  assert (Ef : game_state.first_serve (add_point x (_state e))
               = game_state.first_serve (_state e)) by (by destruct (_state e), x).
  assert (Em : game_state.mode (add_point x (_state e)) = game_state.mode (_state e))
    by (by destruct (_state e), x).
  assert (Et : game_state.p1_score (add_point x (_state e))
               + game_state.p2_score (add_point x (_state e))
               = game_state.p1_score (_state e) + game_state.p2_score (_state e) + 1)
    by (destruct (_state e), x; cbn; lia).
  rewrite Ef, Em, Et, even_flip.
  set (t := game_state.p1_score (_state e) + game_state.p2_score (_state e)) in *.
  assert (Ht : 0 <= t) by (unfold t; destruct Ho as (? & ? & _); lia).
  case_decide as Hd'.
  - (* the point makes it 10-10 or 20-20 *)
    assert (Hk : t + 1 = 2 * deuce_threshold (game_state.mode (_state e))).
    { unfold t. clear Ef Em Et t Ht. destruct (_state e) as [g1 s1 g2 s2 f m].
      unfold game_open, win_condition, in_deuce, add_point, score_of, other,
        target, deuce_threshold in *.
      destruct x, m; cbn in *; lia. }
    rewrite Z.div_1_r, Hk.
    assert (Hq : t = 2 * deuce_threshold (game_state.mode (_state e)) - 1) by lia.
    rewrite Hq. destruct (game_state.mode (_state e)); by vm_compute.
  - set (k := match game_state.mode (_state e) with to_11 => 2 | to_21 => 5 end).
    assert (Hk : 0 < k) by (unfold k; destruct (game_state.mode (_state e)); lia).
    rewrite (div_succ t k) by done.
    case_decide as Hm.
    + rewrite Z.add_1_r, Z.even_succ, <- Z.negb_even.
      split; [done|]. intros _. by destruct (Z.even _).
    + rewrite Z.add_0_r. split; [done | by intros ?].
Qed.

Lemma serve_changes_on_interval_boundary_witness :
  let e := run [call_p1_score] init in
  serve (score_point p2 e) <> serve e.
Proof.
  cbn zeta.
  apply (serve_changes_on_interval_boundary (run [call_p1_score] init) p2).
  - apply reachable_run, reachable_init.
  - vm_compute. intros [_ H]. by apply H.
  - vm_compute. intros [[_ H]|[_ H]]; by apply H.
  - reflexivity.
Defined.

End scoring_more.

(* ================================================================= *)
(** ** More on the debounced button *)
(* ================================================================= *)

Section button_more.
Import avr_button.

Lemma checks_reachable pin reads : forall b,
  reachable pin b -> reachable pin (checks reads b).1.
Proof.
  induction reads as [|r rs IH]; intros b Hb; [done|].
  cbn [checks]. pose proof (reachable_check pin r b Hb) as Hr.
  destruct (check r b) as [b1 a]. specialize (IH b1 Hr).
  by destruct (checks rs b1).
Qed.

Lemma check_edge_opposite pin read b :
  button_ok pin b ->
  let a := (check read b).2 in
  (a = none /\ _current_action (check read b).1 = _current_action b) \/
  (((_current_action b = released /\ a = pressed)
    \/ (_current_action b = pressed /\ a = released))
   /\ _current_action (check read b).1 = a).
Proof.
  intros Hok. pose proof (check_ok pin read b Hok) as (_ & _ & _ & Hs' & _).
  destruct Hok as (_ & _ & _ & _ & Hcur). cbn zeta.
  destruct (check_edge read b Hcur Hs') as (Hiff & Hedge & Hnone).
  destruct ((check read b).2) eqn:Ea.
  - left. by split; [|apply Hnone].
  - right. destruct (Hedge ltac:(done)) as [Ec Hag].
    destruct (proj1 Hiff ltac:(done)) as (s & Hag' & Hne).
    assert (s = pressed) as -> by (destruct Hag as [E0 _], Hag' as [E0' _]; congruence).
    split; [|done]. left. split; [|done]. by destruct (_current_action b).
  - right. destruct (Hedge ltac:(done)) as [Ec Hag].
    destruct (proj1 Hiff ltac:(done)) as (s & Hag' & Hne).
    assert (s = released) as -> by (destruct Hag as [E0 _], Hag' as [E0' _]; congruence).
    split; [|done]. right. split; [|done]. by destruct (_current_action b).
Qed.

(** X10.  Whatever the pin reads, the edges a button reports alternate:
    a [pressed] is followed by a [released] and the other way round,
    and the first edge is the opposite of the latched state. *)
Theorem edges_alternate (pin : avr_digital_input_pin) (reads : list bool) (b : t) :
  reachable pin b ->
  alternates (_current_action b) (filter (fun a => a <> none) (checks reads b).2).
Proof.
  revert b. induction reads as [|r rs IH]; intros b Hb; [done|].
  cbn [checks]. pose proof (reachable_check pin r b Hb) as Hr.
  pose proof (check_edge_opposite pin r b (reachable_ok _ _ Hb)) as Hc.
  destruct (check r b) as [b1 a]. cbn in Hc, Hr. specialize (IH b1 Hr).
  destruct (checks rs b1) as [b2 l]. cbn [snd] in *.
  destruct Hc as [[-> Ec]|[Hopp Ec]].
  - rewrite filter_cons_False by (intros H; by apply H). by rewrite <- Ec.
  - rewrite filter_cons_True by (destruct Hopp as [[_ ->]|[_ ->]]; done).
    cbn. split; [done|]. by rewrite <- Ec.
Qed.

Lemma edges_alternate_witness :
  (checks [false; false; false; false; true; true; true; false; false; false]
          (init undo_switch)).2
  = [none; none; pressed; none; none; none; released; none; none; pressed]
  /\ alternates released [pressed; released; pressed].
Proof.
  split; [reflexivity|].
  apply (edges_alternate undo_switch
           [false; false; false; false; true; true; true; false; false; false]
           (init undo_switch)).
  apply reachable_init.
Defined.

Lemma checks_snoc reads r : forall b,
  (checks (reads ++ [r]) b).1 = (check r (checks reads b).1).1.
Proof.
  induction reads as [|r0 rs IH]; intros b; cbn [checks app].
  - cbn. by destruct (check r b).
  - destruct (check r0 b) as [b1 a]. specialize (IH b1).
    destruct (checks (rs ++ [r]) b1), (checks rs b1). cbn in *.
    by rewrite IH.
Qed.

Lemma checks_counter pin reads :
  (length reads <= 255)%nat ->
  _counter (checks reads (init pin)).1 = Z.of_nat (length reads).
Proof.
  induction reads as [|r rs IH] using rev_ind; intros Hlen; [done|].
  rewrite length_app in *. cbn [length] in *.
  rewrite checks_snoc.
  destruct (check_states r (checks rs (init pin)).1) as (_ & -> & _).
  rewrite IH by lia. unfold to_uint8. rewrite Z.mod_small; lia.
Qed.

(** Before the counter wraps, the slot of each of the last three
    samples holds that sample. *)
Lemma checks_slots pin reads :
  (length reads <= 255)%nat ->
  forall k, (k < length reads)%nat -> (length reads <= k + 3)%nat ->
  _states (checks reads (init pin)).1 !! (k mod 3)%nat = classify pin <$> reads !! k.
Proof.
  induction reads as [|r rs IH] using rev_ind; intros Hlen k Hk Hk3; [cbn in Hk; lia|].
  rewrite length_app in *. cbn [length] in *.
  rewrite checks_snoc.
  pose proof (reachable_ok pin _ (checks_reachable pin rs _ (reachable_init pin)))
    as (Hp & _ & Hl & _).
  destruct (check_states r (checks rs (init pin)).1) as (-> & _ & _).
  rewrite Hp, checks_counter by lia.
  rewrite Z.rem_mod_nonneg by lia.
  replace (Z.to_nat (Z.of_nat (length rs) `mod` 3)) with (length rs mod 3)%nat
    by (rewrite <- (Nat2Z.id (length rs mod 3)), Nat2Z.inj_mod; done).
  pose proof (Nat.mod_upper_bound (length rs) 3 ltac:(lia)).
  destruct (decide (k = length rs)) as [->|Hne].
  - rewrite list_lookup_insert_eq by lia.
    rewrite lookup_app_r by lia. by rewrite Nat.sub_diag.
  - rewrite list_lookup_insert_ne.
    + rewrite lookup_app_l by lia. apply IH; lia.
    + pose proof (Nat.div_mod_eq k 3). pose proof (Nat.div_mod_eq (length rs) 3).
      pose proof (Nat.mod_upper_bound k 3 ltac:(lia)). lia.
Qed.

(** X11.  Before the counter wraps (up to 255 calls since the button
    was built) an edge is reported only when the last three samples
    read the same state, the state of the edge. *)
Theorem edge_means_three_equal_samples
    (pin : avr_digital_input_pin) (reads : list bool) (r1 r2 r3 : bool) :
  (length reads + 3 <= 255)%nat ->
  let a := (check r3 (checks (reads ++ [r1; r2]) (init pin)).1).2 in
  a <> none ->
  classify pin r1 = a /\ classify pin r2 = a /\ classify pin r3 = a.
Proof.
  intros Hlen a Ha. subst a.
  set (rs := reads ++ [r1; r2]) in *.
  assert (Hn : length rs = (length reads + 2)%nat) by (unfold rs; rewrite length_app; done).
  pose proof (checks_slots pin (rs ++ [r3])) as Hslots.
  rewrite length_app, checks_snoc in Hslots. cbn [length] in Hslots.
  pose proof (reachable_ok pin _ (checks_reachable pin rs _ (reachable_init pin))) as Hok.
  pose proof (check_ok pin r3 _ Hok) as (_ & _ & _ & Hs' & _).
  destruct Hok as (_ & _ & _ & _ & Hcur).
  destruct (check_edge r3 _ Hcur Hs') as (_ & Hedge & _).
  destruct (Hedge Ha) as [_ (E0 & E1 & E2)].
  assert (Hall : forall j, (j < 3)%nat ->
            _states (check r3 (checks rs (init pin)).1).1 !! j
            = Some (check r3 (checks rs (init pin)).1).2).
  { intros [|[|[|j]]] Hj; [done|done|done|lia]. }
  assert (Hk : forall k, (length reads <= k)%nat -> (k < length reads + 3)%nat ->
            classify pin <$> (rs ++ [r3]) !! k
            = Some (check r3 (checks rs (init pin)).1).2).
  { intros k Hk1 Hk2. rewrite <- Hslots by lia.
    apply Hall. apply Nat.mod_upper_bound. lia. }
  pose proof (Hk (length reads) ltac:(lia) ltac:(lia)) as H1.
  pose proof (Hk (length reads + 1)%nat ltac:(lia) ltac:(lia)) as H2.
  pose proof (Hk (length reads + 2)%nat ltac:(lia) ltac:(lia)) as H3.
  unfold rs in H1, H2, H3. rewrite <- app_assoc in H1, H2, H3.
  rewrite lookup_app_r in H1, H2, H3 by lia.
  replace (length reads - length reads)%nat with 0%nat in H1 by lia.
  replace (length reads + 1 - length reads)%nat with 1%nat in H2 by lia.
  replace (length reads + 2 - length reads)%nat with 2%nat in H3 by lia.
  cbn in H1, H2, H3. by inversion H1; inversion H2; inversion H3.
Qed.

Lemma edge_means_three_equal_samples_witness :
  (check false (checks ([true; true] ++ [false; false]) (init undo_switch)).1).2 = pressed /\
  classify undo_switch false = pressed.
Proof.
  split; [reflexivity|].
  apply (edge_means_three_equal_samples undo_switch [true; true] false false false).
  - cbn. lia.
  - discriminate.
Defined.

(** X12.  Where the counter wraps from 255 to 0 the same slot is written
    twice in a row (255 mod 3 = 0 mod 3), so a sample is skipped: the
    257th call reports a press although the sample before it read
    released. *)
Theorem edge_after_counter_wrap :
  let reads := replicate 253 true ++ [false; false; true] in
  length reads = 256%nat /\
  classify undo_switch <$> last reads = Some released /\
  _counter (checks reads (init undo_switch)).1 = 0 /\
  (check false (checks reads (init undo_switch)).1).2 = pressed.
Proof. cbn zeta. by vm_compute. Qed.

Lemma covers_all (c : Z) : 0 <= c < 256 -> covers c = true.
Proof.
  intros Hc.
  assert (H : forallb covers (map Z.of_nat (seq 0 256)) = true) by (by vm_compute).
  rewrite forallb_forall in H. apply H.
  apply in_map_iff. exists (Z.to_nat c). split; [lia|]. apply in_seq. lia.
Qed.

Lemma four_writes (l : list action) (s : action) (p0 p1 p2 p3 : nat) :
  length l = 3%nat ->
  forallb (fun j => existsb (Nat.eqb j) [p0; p1; p2; p3]) [0; 1; 2]%nat = true ->
  <[p3 := s]> (<[p2 := s]> (<[p1 := s]> (<[p0 := s]> l))) = [s; s; s].
Proof.
  intros Hl Hc. destruct l as [|a0 [|a1 [|a2 [|]]]]; try done.
  destruct p0 as [|[|[|p0]]], p1 as [|[|[|p1]]], p2 as [|[|[|p2]]], p3 as [|[|[|p3]]];
    try done.
Qed.

Lemma checks_cons r rs b : (checks (r :: rs) b).1 = (checks rs (check r b).1).1.
Proof. cbn [checks]. destruct (check r b) as [b1 a]. cbn. by destruct (checks rs b1). Qed.

Lemma check_slot read b :
  _states (check read b).1 = <[slot_of (_counter b) := classify (_input_pin b) read]> (_states b).
Proof. exact (proj1 (check_states read b)). Qed.

Lemma four_checks_states pin b r :
  button_ok pin b ->
  _states (check r (check r (check r (check r b).1).1).1).1
  = [classify pin r; classify pin r; classify pin r].
Proof.
  intros (Ep & Hc & Hl & _ & _).
  destruct (check_states r b) as (_ & C1 & P1).
  destruct (check_states r (check r b).1) as (_ & C2 & P2).
  destruct (check_states r (check r (check r b).1).1) as (_ & C3 & P3).
  rewrite !check_slot, P3, P2, P1, Ep, C3, C2, C1.
  pose proof (covers_all (_counter b) Hc) as Hcov.
  apply four_writes; [exact Hl | exact Hcov].
Qed.

Lemma checks_nil b : (checks [] b).1 = b.
Proof. reflexivity. Qed.

(** X13.  Four samples in a row that read the same state always latch
    it, in every reachable state of the button, the wrap of the
    counter included. *)
Theorem four_equal_samples_latch (pin : avr_digital_input_pin) (b : t) (r : bool) :
  reachable pin b ->
  state (checks [r; r; r; r] b).1 = classify pin r.
Proof.
  intros Hb. rewrite !checks_cons, checks_nil.
  pose proof (reachable_ok _ _ Hb) as Hok0.
  pose proof (four_checks_states pin b r Hok0) as Hall.
  pose proof (check_ok pin r _ (check_ok pin r _ (check_ok pin r _ Hok0))) as Hok3.
  pose proof (check_ok pin r _ Hok3) as Hok4.
  destruct Hok3 as (_ & _ & _ & _ & Hcur3).
  destruct Hok4 as (_ & _ & _ & Hs4 & _).
  revert Hall Hcur3 Hs4.
  generalize ((check r (check r (check r b).1).1).1). intros b3 Hall Hcur3 Hs4.
  destruct (check_edge r b3 Hcur3 Hs4) as (Hiff & Hedge & Hnone).
  unfold state.
  destruct (decide ((check r b3).2 = none)) as [En|En].
  - rewrite (Hnone En).
    destruct (decide (classify pin r = _current_action b3)) as [E|E]; [exact (eq_sym E)|].
    exfalso.
    assert (Hex : exists s, slots_agree (check r b3).1 s /\ s <> _current_action b3).
    { exists (classify pin r). split; [|exact E].
      unfold slots_agree. rewrite Hall. repeat split. }
    exact (proj2 Hiff Hex En).
  - destruct (Hedge En) as [Ec [E0 _]]. rewrite Ec. rewrite Hall in E0.
    change ([classify pin r; classify pin r; classify pin r] !! 0%nat)
      with (Some (classify pin r)) in E0.
    injection E0 as E0. exact (eq_sym E0).
Qed.

Lemma four_equal_samples_latch_witness :
  state (checks [false; false; false; false]
                (checks (replicate 254 true) (init undo_switch)).1).1 = pressed.
Proof.
  apply (four_equal_samples_latch undo_switch _ false).
  apply checks_reachable, reachable_init.
Defined.

End button_more.

(* ================================================================= *)
(** ** The pins on the registers *)
(* ================================================================= *)

Section registers.

Lemma pin_mask_pow2 (bit : Z) : 0 <= bit < 8 -> pin_mask bit = 2 ^ bit.
Proof.
  intros Hb. unfold pin_mask, to_uint8. rewrite Z.shiftl_1_l.
  apply Z.mod_small. split; [apply Z.pow_nonneg; lia|].
  change 256 with (2 ^ 8). apply Z.pow_lt_mono_r; lia.
Qed.

Lemma testbit_to_uint8 (x j : Z) : 0 <= j < 8 -> Z.testbit (to_uint8 x) j = Z.testbit x j.
Proof.
  intros Hj. unfold to_uint8. change 256 with (2 ^ 8).
  apply Z.mod_pow2_bits_low. lia.
Qed.

Lemma to_uint8_range (x : Z) : 0 <= to_uint8 x < 256.
Proof. unfold to_uint8. by apply Z.mod_pos_bound. Qed.

Lemma testbit_pin_mask (bit j : Z) :
  0 <= bit < 8 -> 0 <= j -> Z.testbit (pin_mask bit) j = bool_decide (j = bit).
Proof.
  intros Hb Hj. rewrite pin_mask_pow2 by done. rewrite Z.pow2_bits_eqb by lia.
  destruct (Z.eqb_spec bit j); [by rewrite bool_decide_eq_true_2 | by rewrite bool_decide_eq_false_2].
Qed.

Lemma land_mask_testbit (x bit : Z) :
  0 <= bit < 8 -> negb (Z.land x (pin_mask bit) =? 0) = Z.testbit x bit.
Proof.
  intros Hb. rewrite pin_mask_pow2 by done.
  destruct (Z.testbit x bit) eqn:Et.
  - apply negb_true_iff, Z.eqb_neq. intros H0.
    apply (f_equal (fun y => Z.testbit y bit)) in H0.
    rewrite Z.land_spec, Et, Z.pow2_bits_true, Z.bits_0 in H0 by lia. done.
  - apply negb_false_iff, Z.eqb_eq. apply Z.bits_inj'. intros n Hn.
    rewrite Z.land_spec, Z.bits_0, Z.pow2_bits_eqb by lia.
    destruct (Z.eqb_spec bit n) as [<-|]; [by rewrite Et | apply andb_false_r].
Qed.

Lemma regs_of_with_regs bank r bd : regs_of bank (with_regs bank r bd) = r.
Proof. by destruct bank. Qed.

Lemma regs_of_with_regs_ne bank bank' r bd :
  bank' <> bank -> regs_of bank' (with_regs bank r bd) = regs_of bank' bd.
Proof. by destruct bank, bank'. Qed.

Lemma set_port_testbit bank bit high bd j :
  0 <= bit < 8 -> 0 <= j < 8 ->
  Z.testbit (io_regs.port (regs_of bank (set_port bank bit high bd))) j
  = if decide (j = bit) then high else Z.testbit (io_regs.port (regs_of bank bd)) j.
Proof.
  intros Hb Hj. unfold set_port. rewrite regs_of_with_regs. cbn. destruct high.
  - rewrite testbit_to_uint8, Z.lor_spec, testbit_pin_mask by lia.
    case_decide; [by rewrite bool_decide_eq_true_2, orb_true_r
                 | by rewrite bool_decide_eq_false_2, orb_false_r].
  - rewrite testbit_to_uint8, Z.land_spec, Z.lnot_spec, testbit_pin_mask by lia.
    case_decide; [by rewrite bool_decide_eq_true_2, andb_false_r
                 | by rewrite bool_decide_eq_false_2, andb_true_r].
Qed.

Lemma set_port_other bank bit high bd :
  io_regs.ddr (regs_of bank (set_port bank bit high bd)) = io_regs.ddr (regs_of bank bd) /\
  io_regs.pin (regs_of bank (set_port bank bit high bd)) = io_regs.pin (regs_of bank bd) /\
  (forall bank', bank' <> bank ->
     regs_of bank' (set_port bank bit high bd) = regs_of bank' bd).
Proof.
  unfold set_port. rewrite regs_of_with_regs. cbn. split; [done|]. split; [done|].
  intros bank' Hne. by apply regs_of_with_regs_ne.
Qed.

(** X14.  [avr_digital_output_pin::set] on bit 0..7 of a bank makes that
    bit of the port register equal to its argument and leaves the
    other bits of the register, the other two registers of the bank
    and the other banks as they are; the register stays a byte. *)
Theorem set_port_changes_own_bit_only
    (bank : avr_io_bank) (bit : Z) (high : bool) (bd : board) :
  0 <= bit < 8 ->
  let bd' := set_port bank bit high bd in
  (forall j, 0 <= j < 8 ->
     Z.testbit (io_regs.port (regs_of bank bd')) j
     = if decide (j = bit) then high else Z.testbit (io_regs.port (regs_of bank bd)) j) /\
  0 <= io_regs.port (regs_of bank bd') < 256 /\
  io_regs.ddr (regs_of bank bd') = io_regs.ddr (regs_of bank bd) /\
  io_regs.pin (regs_of bank bd') = io_regs.pin (regs_of bank bd) /\
  (forall bank', bank' <> bank -> regs_of bank' bd' = regs_of bank' bd).
Proof.
  intros Hb. cbn zeta.
  split; [intros j Hj; by apply set_port_testbit|].
  split; [|apply set_port_other].
  unfold set_port. rewrite regs_of_with_regs. cbn. destruct high; apply to_uint8_range.
Qed.

Lemma set_port_changes_own_bit_only_witness :
  let bd := {| regs_b := io_regs.mk 0 0 0; regs_c := io_regs.mk 0 0 0;
               regs_d := io_regs.mk 255 128 0 |} in
  Z.testbit (io_regs.port (regs_of avr_io_bank_d (set_port avr_io_bank_d 3 true bd))) 7
  = Z.testbit (io_regs.port (regs_of avr_io_bank_d bd)) 7.
Proof.
  cbn zeta.
  rewrite (proj1 (set_port_changes_own_bit_only avr_io_bank_d 3 true _ ltac:(lia)) 7 ltac:(lia)).
  reflexivity.
Defined.

(** X15.  The constructor of an input pin clears its bit of the data
    direction register, sets its bit of the port register exactly when
    the pull-up is asked for, and touches no other bit; [read] returns
    the bit of the pin in the input register. *)
Theorem input_pin_init_and_read (p : avr_digital_input_pin) (bd : board) :
  0 <= input_bit p < 8 ->
  let bd' := avr_digital_input_pin_init p bd in
  let r := regs_of (input_bank p) bd in
  let r' := regs_of (input_bank p) bd' in
  (forall j, 0 <= j < 8 ->
     Z.testbit (io_regs.ddr r') j
     = if decide (j = input_bit p) then false else Z.testbit (io_regs.ddr r) j) /\
  (forall j, 0 <= j < 8 ->
     Z.testbit (io_regs.port r') j
     = if decide (j = input_bit p) then _pull_up p || Z.testbit (io_regs.port r) j
       else Z.testbit (io_regs.port r) j) /\
  read p bd' = Z.testbit (io_regs.pin r) (input_bit p).
Proof.
  intros Hb. cbn zeta. unfold avr_digital_input_pin_init, read.
  rewrite regs_of_with_regs. split; [|split].
  - intros j Hj. destruct (_pull_up p); cbn;
      rewrite testbit_to_uint8, Z.land_spec, Z.lnot_spec, testbit_pin_mask by lia;
      (case_decide; [by rewrite bool_decide_eq_true_2, andb_false_r
                    | by rewrite bool_decide_eq_false_2, andb_true_r]).
  - intros j Hj. destruct (_pull_up p); cbn.
    + rewrite testbit_to_uint8, Z.lor_spec, testbit_pin_mask by lia.
      case_decide; [by rewrite bool_decide_eq_true_2, orb_true_r
                   | by rewrite bool_decide_eq_false_2, orb_false_r].
    + by case_decide.
  - rewrite land_mask_testbit by done. by destruct (_pull_up p).
Qed.

Lemma input_pin_init_and_read_witness :
  let bd := {| regs_b := io_regs.mk 0 0 0; regs_c := io_regs.mk 0 0 0;
               regs_d := io_regs.mk 255 0 128 |} in
  read undo_switch (avr_digital_input_pin_init undo_switch bd) = true.
Proof.
  cbn zeta.
  rewrite (proj2 (proj2 (input_pin_init_and_read undo_switch _ ltac:(cbn; lia)))).
  reflexivity.
Defined.

Lemma replay_app w1 w2 bd : replay (w1 ++ w2) bd = replay w2 (replay w1 bd).
Proof. unfold replay. by rewrite foldl_app. Qed.

Lemma replay_set pin high w bd :
  replay (set pin high w) bd
  = match pin with
    | avr_digital_output_pin_null => replay w bd
    | avr_digital_output_pin bank bit => set_port bank bit high (replay w bd)
    end.
Proof. destruct pin; [done|]. cbn [set]. by rewrite replay_app. Qed.

Lemma mask_bit_testbit (mask : Z) (i : nat) :
  negb (Z.land mask (Z.shiftl 1 (Z.of_nat i)) =? 0) = Z.testbit mask (Z.of_nat i).
Proof.
  rewrite Z.shiftl_1_l.
  destruct (Z.testbit mask (Z.of_nat i)) eqn:Et.
  - apply negb_true_iff, Z.eqb_neq. intros H0.
    apply (f_equal (fun y => Z.testbit y (Z.of_nat i))) in H0.
    rewrite Z.land_spec, Et, Z.pow2_bits_true, Z.bits_0 in H0 by lia. done.
  - apply negb_false_iff, Z.eqb_eq. apply Z.bits_inj'. intros n Hn.
    rewrite Z.land_spec, Z.bits_0, Z.pow2_bits_eqb by lia.
    destruct (Z.eqb_spec (Z.of_nat i) n) as [<-|]; [by rewrite Et | apply andb_false_r].
Qed.

Lemma seg_display_custom_port_d
    (mask : Z) (s : avr_seven_segment_pins.t) (w : trace) (bd : board) :
  avr_seven_segment_pins._segs s = avr_seven_segment_pins._segs seven_segment_pins ->
  let bd0 := replay w bd in
  let bd1 := replay (avr_seven_segment_pins.display_custom mask s w).2 bd in
  (forall j, 0 <= j < 7 ->
     Z.testbit (io_regs.port (regs_d bd1)) j = Z.testbit mask j) /\
  Z.testbit (io_regs.port (regs_d bd1)) 7 = Z.testbit (io_regs.port (regs_d bd0)) 7 /\
  io_regs.ddr (regs_d bd1) = io_regs.ddr (regs_d bd0) /\
  regs_b bd1 = regs_b bd0 /\ regs_c bd1 = regs_c bd0.
Proof.
  intros Hs. cbn zeta. unfold avr_seven_segment_pins.display_custom. rewrite Hs.
  cbn [snd seq foldl avr_seven_segment_pins._segs seven_segment_pins lookup list_lookup].
  rewrite !replay_set, !mask_bit_testbit.
  generalize (replay w bd). intros bd0.
  pose proof (fun bit high bd j => set_port_testbit avr_io_bank_d bit high bd j) as Ht.
  pose proof (fun bit high bd => set_port_other avr_io_bank_d bit high bd) as Ho.
  cbn [regs_of] in Ht, Ho.
  split; [|split; [|split; [|split]]].
  - intros j Hj. rewrite !Ht by lia.
    repeat case_decide; subst; try done; lia.
  - rewrite !Ht by lia. repeat case_decide; try done; lia.
  - by rewrite !(fun bit high bd => proj1 (Ho bit high bd)).
  - by rewrite !(fun bit high bd =>
                   proj2 (proj2 (Ho bit high bd)) avr_io_bank_b ltac:(done)).
  - by rewrite !(fun bit high bd =>
                   proj2 (proj2 (Ho bit high bd)) avr_io_bank_c ltac:(done)).
Qed.

(** X16.  With the segment pins wired as in [main] (A..G on bits 0..6 of
    bank D, no decimal point pin), the events of [display_custom mask]
    leave bits 0..6 of PORTD equal to bits 0..6 of [mask]; bit 7 of
    PORTD (the pull-up of the undo switch), the direction register and
    the two other banks are not touched. *)
Theorem segment_pattern_reaches_port_d
    (mask : Z) (s : avr_seven_segment_pins.t) (w : trace) (bd : board) :
  avr_seven_segment_pins._segs s = avr_seven_segment_pins._segs seven_segment_pins ->
  let bd0 := replay w bd in
  let bd1 := replay (avr_seven_segment_pins.display_custom mask s w).2 bd in
  (forall j, 0 <= j < 7 ->
     Z.testbit (io_regs.port (regs_d bd1)) j = Z.testbit mask j) /\
  Z.testbit (io_regs.port (regs_d bd1)) 7 = Z.testbit (io_regs.port (regs_d bd0)) 7 /\
  io_regs.ddr (regs_d bd1) = io_regs.ddr (regs_d bd0) /\
  regs_b bd1 = regs_b bd0 /\ regs_c bd1 = regs_c bd0.
Proof. apply seg_display_custom_port_d. Qed.

Lemma segment_pattern_reaches_port_d_witness :
  let bd := {| regs_b := io_regs.mk 0 0 0; regs_c := io_regs.mk 0 0 0;
               regs_d := io_regs.mk 127 128 0 |} in
  let bd1 := replay (avr_seven_segment_pins.display_custom (sevseg 3) seven_segment_pins []).2 bd in
  io_regs.port (regs_d bd1) = 128 + sevseg 3 /\
  Z.testbit (io_regs.port (regs_d bd1)) 7 = true.
Proof.
  cbn zeta. split; [reflexivity|].
  rewrite (proj1 (proj2 (segment_pattern_reaches_port_d (sevseg 3) seven_segment_pins [] _
                           eq_refl))).
  reflexivity.
Defined.

End registers.

(* ================================================================= *)
(** ** More on the multiplexed display *)
(* ================================================================= *)

Section display_more.
Import avr_seven_segment_display.

Lemma remaining_hex_0 value : remaining_hex value 0 = value.
Proof. unfold remaining_hex. cbn. by rewrite Z.div_1_r. Qed.

Lemma remaining_hex_S value i : remaining_hex value (S i) = remaining_hex value i `div` 16.
Proof.
  unfold remaining_hex. rewrite Nat2Z.inj_succ, Z.pow_succ_r by lia.
  rewrite Z.mul_comm, Z.div_div; [done| |lia]. apply Z.pow_nonzero; lia.
Qed.

Lemma remaining_hex_bound value i :
  0 <= value < 2 ^ 32 -> 0 <= remaining_hex value i < 2 ^ 32.
Proof.
  intros Hv. unfold remaining_hex.
  assert (0 < 16 ^ Z.of_nat i) by (apply Z.pow_pos_nonneg; lia).
  split; [apply Z.div_pos; lia|].
  apply Z.le_lt_trans with value; [|lia]. apply Z.div_le_upper_bound; nia.
Qed.

Lemma display_hex_body_spec value decimal_point i st :
  0 <= value < 2 ^ 32 ->
  display_hex_body decimal_point (remaining_hex value i, st) i =
  (remaining_hex value (S i), show_digit decimal_point i (hex_glyph value decimal_point i) st).
Proof.
  intros Hv. pose proof (remaining_hex_bound value i Hv) as Hr.
  rewrite remaining_hex_S. destruct st as [d w].
  unfold display_hex_body, show_digit, hex_glyph.
  set (r := remaining_hex value i) in *.
  destruct (Z.eqb_spec r 0) as [E|E]; cbn [negb].
  - rewrite decide_False by (intros ?; done). rewrite E.
    change (0 `div` 16) with 0.
    destruct (Z.eqb_spec (Z.of_nat i) 0) as [E0|E0]; cbn [orb].
    { rewrite decide_True by (left; lia). by destruct (Z.of_nat i =? decimal_point). }
    destruct (Z.geb_spec decimal_point 0) as [Ed|Ed]; cbn [andb].
    + destruct (Z.leb_spec (Z.of_nat i) decimal_point).
      * rewrite decide_True by (right; lia). by destruct (Z.of_nat i =? decimal_point).
      * rewrite decide_False by lia. by destruct (Z.of_nat i =? decimal_point).
    + rewrite decide_False by lia. by destruct (Z.of_nat i =? decimal_point).
  - rewrite decide_True by done.
    assert (Hq : to_uint32 (r `quot` 16) = r `div` 16).
    { unfold to_uint32. rewrite Z.quot_div_nonneg by lia.
      apply Z.mod_small. split; [apply Z.div_pos; lia|].
      apply Z.div_lt_upper_bound; lia. }
    assert (Hm : (to_uint8 (r `rem` 16)) `rem` 16 = r `mod` 16).
    { unfold to_uint8. rewrite !Z.rem_mod_nonneg; try lia.
      - pose proof (Z.mod_pos_bound r 16). rewrite (Z.mod_small (r `mod` 16) 256) by lia.
        apply Z.mod_mod. lia.
      - apply Z.mod_pos_bound. lia. }
    rewrite Hq. unfold avr_seven_segment_pins.display_hex. rewrite Hm.
    by destruct (Z.of_nat i =? decimal_point).
Qed.

Lemma display_hex_loop value decimal_point n : forall k st,
  0 <= value < 2 ^ 32 ->
  foldl (display_hex_body decimal_point) (remaining_hex value k, st) (seq k n) =
  (remaining_hex value (k + n),
   foldl (fun st i => show_digit decimal_point i (hex_glyph value decimal_point i) st)
         st (seq k n)).
Proof.
  induction n as [|n IH]; intros k st Hv.
  - by rewrite Nat.add_0_r.
  - cbn [seq foldl]. rewrite display_hex_body_spec, IH by done.
    by replace (S k + n)%nat with (k + S n)%nat by lia.
Qed.

Lemma display_hex_unfold value decimal_point d w :
  0 <= value < 2 ^ 32 ->
  display_hex value decimal_point d w =
  show_digits decimal_point (hex_glyph value decimal_point)
    (Z.to_nat (num_digits_t d)) (d, clear_digits d w).
Proof.
  intros Hv. unfold display_hex, show_digits.
  rewrite <- (remaining_hex_0 value) at 1. by rewrite display_hex_loop.
Qed.

(** X17.  [display_hex] serves the digits in increasing order, digit
    [i] showing the glyph of the hexadecimal digit [i] of [value] while
    [value / 16 ^ i] is nonzero, else the glyph of zero on digit 0 and
    on the digits up to a requested decimal point, else the blank
    pattern. *)
Theorem display_hex_digit_rule (d : t) (value decimal_point : Z) (w : trace) :
  0 <= value < 2 ^ 32 ->
  display_hex value decimal_point d w =
  show_digits decimal_point (hex_glyph value decimal_point)
    (Z.to_nat (num_digits_t d)) (d, clear_digits d w).
Proof. apply display_hex_unfold. Qed.

Lemma display_hex_digit_rule_witness :
  display_hex 431 (-1) p1_score_display [] =
  show_digits (-1) (hex_glyph 431 (-1)) 2 (p1_score_display, clear_digits p1_score_display [])
  /\ hex_glyph 431 (-1) 0 = sevseg 15 /\ hex_glyph 431 (-1) 1 = sevseg 10.
Proof.
  split; [|split; reflexivity].
  apply (display_hex_digit_rule p1_score_display 431 (-1) []). lia.
Defined.

(** X18.  The ten decimal glyphs are pairwise different; none of the
    sixteen patterns is blank or lights the decimal point; the glyphs
    of 6 and of hexadecimal b are the same pattern. *)
Theorem segment_table_is_readable :
  (forall i j, 0 <= i < 10 -> 0 <= j < 10 -> sevseg i = sevseg j -> i = j) /\
  (forall i, 0 <= i < 16 -> 0 < sevseg i < 128) /\
  sevseg 6 = sevseg 11.
Proof.
  split; [|split; [|reflexivity]].
  - intros i j Hi Hj.
    assert (H : forallb (fun a => forallb (fun b =>
                  implb (sevseg (Z.of_nat a) =? sevseg (Z.of_nat b)) (a =? b)%nat)
                  (seq 0 10)) (seq 0 10) = true) by (by vm_compute).
    rewrite forallb_forall in H. specialize (H (Z.to_nat i) ltac:(apply in_seq; lia)).
    rewrite forallb_forall in H. specialize (H (Z.to_nat j) ltac:(apply in_seq; lia)).
    rewrite !Z2Nat.id in H by lia. intros E. rewrite E, Z.eqb_refl in H.
    apply Nat.eqb_eq in H. lia.
  - intros i Hi.
    assert (H : forallb (fun a => (0 <? sevseg (Z.of_nat a)) && (sevseg (Z.of_nat a) <? 128))
                  (seq 0 16) = true) by (by vm_compute).
    rewrite forallb_forall in H. specialize (H (Z.to_nat i) ltac:(apply in_seq; lia)).
    rewrite Z2Nat.id in H by lia. apply andb_true_iff in H as [H1 H2]. lia.
Qed.

Lemma segment_table_is_readable_witness : sevseg 3 <> sevseg 8 /\ 0 < sevseg 15 < 128.
Proof.
  split.
  - intros E. by apply (proj1 segment_table_is_readable 3 8 ltac:(lia) ltac:(lia)) in E.
  - apply (proj1 (proj2 segment_table_is_readable)). lia.
Defined.

Lemma delay_total_app w1 w2 : delay_total (w1 ++ w2) = delay_total w1 + delay_total w2.
Proof.
  unfold delay_total. induction w1 as [|ev w1 IH]; cbn; [lia|].
  destruct ev; cbn in *; lia.
Qed.

Lemma in_bounds_app w1 w2 : in_bounds (w1 ++ w2) <-> in_bounds w1 /\ in_bounds w2.
Proof. apply Forall_app. Qed.

Lemma writes_only_refl w : writes_only w w.
Proof. exists []. by rewrite app_nil_r. Qed.

Lemma writes_only_trans w1 w2 w3 :
  writes_only w1 w2 -> writes_only w2 w3 -> writes_only w1 w3.
Proof.
  intros (e1 & -> & H1) (e2 & -> & H2). exists (e1 ++ e2).
  split; [by rewrite app_assoc | by apply Forall_app].
Qed.

Lemma writes_only_extends w w' : writes_only w w' -> extends_with 0 w w'.
Proof.
  intros (ext & -> & Hext). exists ext. split; [done|].
  induction Hext as [|ev ext Hev _ [IH1 IH2]]; [by split; [|constructor]|].
  destruct ev; try done. split; [done | by constructor].
Qed.

Lemma extends_with_trans a b w1 w2 w3 :
  extends_with a w1 w2 -> extends_with b w2 w3 -> extends_with (a + b) w1 w3.
Proof.
  intros (e1 & -> & D1 & B1) (e2 & -> & D2 & B2). exists (e1 ++ e2).
  split; [by rewrite app_assoc|]. rewrite delay_total_app, in_bounds_app.
  split; [lia | done].
Qed.

Lemma delay_extends ms w : extends_with ms w (_delay_ms ms w).
Proof.
  exists [ev_delay_ms ms]. split; [done|]. split; [cbn; lia | by repeat constructor].
Qed.

Lemma set_writes_only pin high w : writes_only w (set pin high w).
Proof.
  destruct pin; [apply writes_only_refl|]. eexists. split; [done|]. by repeat constructor.
Qed.

Lemma foldl_writes_only {A} (f : trace -> A -> trace) (l : list A) :
  (forall w a, writes_only w (f w a)) -> forall w, writes_only w (foldl f w l).
Proof.
  intros Hf. induction l as [|a l IH]; intros w; [apply writes_only_refl|].
  cbn. eapply writes_only_trans; [apply Hf | apply IH].
Qed.

Lemma seg_display_custom_spec mask s w :
  (avr_seven_segment_pins.display_custom mask s w).1
  = avr_seven_segment_pins.mk (avr_seven_segment_pins._segs s) mask /\
  writes_only w (avr_seven_segment_pins.display_custom mask s w).2.
Proof.
  unfold avr_seven_segment_pins.display_custom. cbn [fst snd]. split; [done|].
  apply foldl_writes_only. intros w0 i.
  destruct (_ !! i); [apply set_writes_only | apply writes_only_refl].
Qed.

Lemma seg_decimal_point_spec display s w :
  avr_seven_segment_pins._segs (avr_seven_segment_pins.display_decimal_point display s w).1
  = avr_seven_segment_pins._segs s /\
  writes_only w (avr_seven_segment_pins.display_decimal_point display s w).2.
Proof.
  unfold avr_seven_segment_pins.display_decimal_point.
  destruct display;
    match goal with |- context [avr_seven_segment_pins.display_custom ?m s w] =>
      destruct (seg_display_custom_spec m s w) as [-> ?] end; done.
Qed.

Lemma digit_set_writes_only i high d w :
  (i < length (_digits d))%nat -> writes_only w (digit_set i high d w).
Proof.
  intros Hi. unfold digit_set.
  destruct (lookup_lt_is_Some_2 _ _ Hi) as [pin ->]. apply set_writes_only.
Qed.

Lemma clear_digits_writes_only d w :
  (Z.to_nat (num_digits_t d) <= length (_digits d))%nat ->
  writes_only w (clear_digits d w).
Proof.
  intros Hn. unfold clear_digits.
  generalize (Z.to_nat (num_digits_t d)) Hn. intros n Hle. clear Hn. revert w.
  induction n as [|n IH]; intros w; [apply writes_only_refl|].
  rewrite seq_S, foldl_app. cbn [foldl plus].
  eapply writes_only_trans; [apply IH; lia | apply digit_set_writes_only; lia].
Qed.

(** One multiplexing slot: the trace grows by writes and one hold, the
    display keeps its wiring and the segment pins end blank. *)
Lemma show_digit_spec decimal_point i pattern d w :
  (i < length (_digits d))%nat ->
  let r := show_digit decimal_point i pattern (d, w) in
  r.1 = with_seg (avr_seven_segment_pins.mk (avr_seven_segment_pins._segs (_seg d)) 0) d /\
  extends_with DIGIT_DELAY_MS w r.2.
Proof.
  intros Hi. cbn zeta. unfold show_digit.
  destruct (seg_display_custom_spec pattern (_seg d) w) as [E1 W1].
  destruct (avr_seven_segment_pins.display_custom pattern (_seg d) w) as [s1 w1].
  cbn [fst snd] in E1, W1.
  assert (H2 : exists s2 w2,
            (if Z.of_nat i =? decimal_point
             then avr_seven_segment_pins.display_decimal_point true s1 w1
             else (s1, w1)) = (s2, w2)
            /\ avr_seven_segment_pins._segs s2 = avr_seven_segment_pins._segs (_seg d)
            /\ writes_only w w2).
  { destruct (Z.of_nat i =? decimal_point).
    - destruct (seg_decimal_point_spec true s1 w1) as [E2 W2].
      destruct (avr_seven_segment_pins.display_decimal_point true s1 w1) as [s2 w2].
      exists s2, w2. cbn in *. split; [done|]. split; [by rewrite E2, E1|].
      by eapply writes_only_trans.
    - exists s1, w1. split; [done|]. split; [by rewrite E1 | done]. }
  destruct H2 as (s2 & w2 & -> & E2 & W2).
  pose proof (digit_set_writes_only i true d w2 Hi) as W3.
  set (w3 := digit_set i true d w2) in *.
  pose proof (digit_set_writes_only i false d (_delay_ms DIGIT_DELAY_MS w3) Hi) as W4.
  set (w4 := digit_set i false d (_delay_ms DIGIT_DELAY_MS w3)) in *.
  destruct (seg_display_custom_spec 0 s2 w4) as [E5 W5].
  unfold avr_seven_segment_pins.clear.
  destruct (avr_seven_segment_pins.display_custom 0 s2 w4) as [s5 w5].
  cbn [fst snd] in *. subst s5. rewrite E2. split; [done|].
  pose proof (writes_only_extends _ _ (writes_only_trans _ _ _ W2 W3)) as X3.
  pose proof (writes_only_extends _ _ (writes_only_trans _ _ _ W4 W5)) as X5.
  pose proof (extends_with_trans _ _ _ _ _ X3
                (extends_with_trans _ _ _ _ _ (delay_extends DIGIT_DELAY_MS w3) X5)) as X.
  by replace (0 + (DIGIT_DELAY_MS + 0)) with DIGIT_DELAY_MS in X by lia.
Qed.

Lemma show_digits_spec decimal_point glyph n : forall d w,
  (n <= length (_digits d))%nat ->
  let r := show_digits decimal_point glyph n (d, w) in
  r.1 = (if decide (n = 0%nat) then d else dark d) /\
  extends_with (DIGIT_DELAY_MS * Z.of_nat n) w r.2.
Proof.
  unfold show_digits. induction n as [|n IH]; intros d w Hn; cbn zeta.
  - cbn [seq foldl fst snd]. split; [done|].
    exists []. split; [by rewrite app_nil_r|]. split; [cbn; lia | constructor].
  - rewrite seq_S, foldl_app. cbn [foldl plus].
    destruct (IH d w ltac:(lia)) as (E & X).
    destruct (foldl _ (d, w) (seq 0 n)) as [d1 w1]. cbn [fst snd] in E, X.
    assert (Hd1 : _digits d1 = _digits d /\ dark d1 = dark d).
    { rewrite E. by case_decide. }
    destruct Hd1 as [Hdig Hdark].
    destruct (show_digit_spec decimal_point n (glyph n) d1 w1) as (E' & X').
    { rewrite Hdig. lia. }
    fold (dark d1) in E'. rewrite E', Hdark. split; [done|].
    pose proof (extends_with_trans _ _ _ _ _ X X') as X2.
    by replace (DIGIT_DELAY_MS * Z.of_nat n + DIGIT_DELAY_MS)
      with (DIGIT_DELAY_MS * Z.of_nat (S n)) in X2 by lia.
Qed.

Lemma refresh_spec decimal_point glyph d w :
  length (_digits d) = Z.to_nat (num_digits_t d) ->
  let r := show_digits decimal_point glyph (Z.to_nat (num_digits_t d)) (d, clear_digits d w) in
  r.1 = (if decide (num_digits_t d <= 0) then d else dark d) /\
  extends_with (3 * Z.of_nat (Z.to_nat (num_digits_t d))) w r.2.
Proof.
  intros Hl. cbn zeta.
  destruct (show_digits_spec decimal_point glyph (Z.to_nat (num_digits_t d)) d
              (clear_digits d w) ltac:(lia)) as (E & X).
  pose proof (writes_only_extends w (clear_digits d w)
                (clear_digits_writes_only d w ltac:(lia))) as Xc.
  rewrite E. split; [repeat case_decide; try done; lia|].
  pose proof (extends_with_trans _ _ _ _ _ Xc X) as X2.
  unfold DIGIT_DELAY_MS in X2. by rewrite Z.add_0_l in X2.
Qed.

(** X19.  On a display whose [_digits] array has [num_digits_t] cells,
    [display_decimal] and [display_hex] only add events to the trace;
    the events added never read [_digits] out of bounds and hold for
    3 ms per digit in total; the display is left with its wiring
    unchanged and, when it has a digit, with the segment pins blank. *)
Theorem refresh_is_in_bounds_timed_and_ends_blank
    (d : t) (value decimal_point : Z) (w : trace) :
  length (_digits d) = Z.to_nat (num_digits_t d) ->
  (0 <= value < 256 ->
   let r := display_decimal value decimal_point d w in
   r.1 = (if decide (num_digits_t d <= 0) then d else dark d) /\
   exists ext, r.2 = w ++ ext /\
     delay_total ext = 3 * Z.of_nat (Z.to_nat (num_digits_t d)) /\ in_bounds ext) /\
  (0 <= value < 2 ^ 32 ->
   let r := display_hex value decimal_point d w in
   r.1 = (if decide (num_digits_t d <= 0) then d else dark d) /\
   exists ext, r.2 = w ++ ext /\
     delay_total ext = 3 * Z.of_nat (Z.to_nat (num_digits_t d)) /\ in_bounds ext).
Proof.
  intros Hl. split; intros Hv; cbn zeta.
  - rewrite display_decimal_unfold by done. by apply (refresh_spec decimal_point _ d w).
  - rewrite display_hex_unfold by done. by apply (refresh_spec decimal_point _ d w).
Qed.

Lemma refresh_is_in_bounds_timed_and_ends_blank_witness :
  (display_decimal 42 (-1) p1_score_display []).1 = p1_score_display /\
  exists ext, (display_decimal 42 (-1) p1_score_display []).2 = [] ++ ext /\
    delay_total ext = 6 /\ in_bounds ext.
Proof.
  destruct (proj1 (refresh_is_in_bounds_timed_and_ends_blank p1_score_display 42 (-1) []
                     eq_refl) ltac:(lia)) as (E & X).
  split; [rewrite E; reflexivity | exact X].
Defined.

(** X20.  [display_decimal_point] sets or clears bit 7 of the pattern the
    segment pins remember and keeps its seven other bits. *)
Theorem decimal_point_changes_bit_7_only
    (display : bool) (s : avr_seven_segment_pins.t) (w : trace) :
  let s' := (avr_seven_segment_pins.display_decimal_point display s w).1 in
  (forall j, 0 <= j < 8 ->
     Z.testbit (avr_seven_segment_pins._current_display s') j
     = if decide (j = 7) then display
       else Z.testbit (avr_seven_segment_pins._current_display s) j) /\
  0 <= avr_seven_segment_pins._current_display s' < 256 /\
  avr_seven_segment_pins._segs s' = avr_seven_segment_pins._segs s.
Proof.
  cbn zeta. unfold avr_seven_segment_pins.display_decimal_point.
  destruct display;
    match goal with |- context [avr_seven_segment_pins.display_custom ?m s w] =>
      destruct (seg_display_custom_spec m s w) as [-> _] end;
    cbn [avr_seven_segment_pins._current_display avr_seven_segment_pins._segs];
    (split; [|split; [apply to_uint8_range | done]]); intros j Hj;
    change SEG_DP with (2 ^ 7).
  - rewrite testbit_to_uint8, Z.lor_spec, Z.pow2_bits_eqb by lia.
    case_decide; [subst; by rewrite orb_true_r|].
    destruct (Z.eqb_spec 7 j); [lia | by rewrite orb_false_r].
  - rewrite testbit_to_uint8, Z.land_spec, Z.lnot_spec, Z.pow2_bits_eqb by lia.
    case_decide; [subst; by rewrite andb_false_r|].
    destruct (Z.eqb_spec 7 j); [lia | by rewrite andb_true_r].
Qed.

Lemma decimal_point_changes_bit_7_only_witness :
  Z.testbit
    (avr_seven_segment_pins._current_display
       (avr_seven_segment_pins.display_decimal_point true
          (avr_seven_segment_pins.mk (avr_seven_segment_pins._segs seven_segment_pins)
             (sevseg 4)) []).1) 6
  = Z.testbit (sevseg 4) 6.
Proof.
  exact (proj1 (decimal_point_changes_bit_7_only true
                  (avr_seven_segment_pins.mk
                     (avr_seven_segment_pins._segs seven_segment_pins) (sevseg 4)) [])
               6 ltac:(lia)).
Defined.

Lemma display_custom_p1_score mask digit w :
  0 <= digit < 2 ->
  let w0 := (w ++ [ev_set avr_io_bank_b 1 false]) ++ [ev_set avr_io_bank_b 2 false] in
  exists ext,
    (avr_seven_segment_pins.display_custom mask seven_segment_pins w0).2 = w0 ++ ext /\
    Forall (fun ev => match ev with ev_set _ _ _ => True | _ => False end) ext /\
    display_custom mask digit p1_score_display w
    = (with_seg (avr_seven_segment_pins.mk
                   (avr_seven_segment_pins._segs seven_segment_pins) mask) p1_score_display,
       (w0 ++ ext) ++ [ev_set avr_io_bank_b (1 + digit) true]).
Proof.
  intros Hd. cbn zeta. unfold display_custom.
  destruct (Z.leb_spec digit (num_digits_t p1_score_display)) as [_|H]; [|cbn in H; lia].
  change (clear_digits p1_score_display w)
    with ((w ++ [ev_set avr_io_bank_b 1 false]) ++ [ev_set avr_io_bank_b 2 false]).
  change (_seg p1_score_display) with seven_segment_pins.
  destruct (seg_display_custom_spec mask seven_segment_pins
              ((w ++ [ev_set avr_io_bank_b 1 false]) ++ [ev_set avr_io_bank_b 2 false]))
    as [E1 (ext & E2 & Hext)].
  revert E1 E2.
  generalize (avr_seven_segment_pins.display_custom mask seven_segment_pins
                ((w ++ [ev_set avr_io_bank_b 1 false]) ++ [ev_set avr_io_bank_b 2 false])).
  intros [s1 w1] E1 E2. cbn [fst snd] in E1, E2. subst s1 w1.
  exists ext. split; [done|]. split; [done|].
  assert (Hdig : digit = 0 \/ digit = 1) by lia.
  destruct Hdig as [-> | ->]; reflexivity.
Qed.

(** X23.  On the two digit score display, [display_custom] with a
    digit inside the array reads nothing out of bounds, makes the
    segment pins remember [mask], puts bits 0..6 of [mask] on PORTD,
    and leaves the select line of that digit high and the other select
    line low on PORTB. *)
Theorem display_custom_selects_one_digit (mask digit : Z) (w : trace) (bd : board) :
  0 <= digit < 2 ->
  let r := display_custom mask digit p1_score_display w in
  let bd1 := replay r.2 bd in
  in_bounds (drop (length w) r.2) /\
  avr_seven_segment_pins._current_display (_seg r.1) = mask /\
  (forall j, 0 <= j < 7 -> Z.testbit (io_regs.port (regs_d bd1)) j = Z.testbit mask j) /\
  (forall k, 0 <= k < 2 ->
     Z.testbit (io_regs.port (regs_b bd1)) (1 + k) = bool_decide (k = digit)).
Proof.
  intros Hd. cbn zeta.
  destruct (display_custom_p1_score mask digit w Hd) as (ext & E & Hext & ->).
  cbn [fst snd].
  destruct (seg_display_custom_port_d mask seven_segment_pins
              ((w ++ [ev_set avr_io_bank_b 1 false]) ++ [ev_set avr_io_bank_b 2 false])
              bd eq_refl) as (Hd' & _ & _ & Hb & _).
  rewrite E in Hd', Hb.
  pose proof (fun b h x j => set_port_testbit avr_io_bank_b b h x j) as Ht.
  pose proof (fun b h x => set_port_other avr_io_bank_b b h x) as Ho.
  cbn [regs_of] in Ht, Ho.
  rewrite (replay_app _ [ev_set avr_io_bank_b (1 + digit) true]).
  cbn [replay foldl drive].
  split; [|split; [done|split]].
  - rewrite <- !app_assoc, drop_app_length.
    apply in_bounds_app. split; [by repeat constructor|].
    apply in_bounds_app. split; [by repeat constructor|].
    apply in_bounds_app. split; [|by repeat constructor].
    eapply Forall_impl; [exact Hext|]. by intros [].
  - intros j Hj.
    rewrite (proj2 (proj2 (Ho (1 + digit) true _)) avr_io_bank_d ltac:(done)).
    by apply Hd'.
  - intros k Hk. rewrite Ht by lia. rewrite Hb.
    rewrite !replay_app. cbn [replay foldl drive]. rewrite !Ht by lia.
    destruct (decide (k = digit)) as [->|Hne];
      [rewrite bool_decide_eq_true_2 by done | rewrite bool_decide_eq_false_2 by done];
      repeat case_decide; try lia; done.
Qed.

Lemma display_custom_selects_one_digit_witness :
  let bd := {| regs_b := io_regs.mk 255 6 0; regs_c := io_regs.mk 0 0 0;
               regs_d := io_regs.mk 127 128 0 |} in
  let bd1 := replay (display_custom (sevseg 8) 1 p1_score_display []).2 bd in
  Z.testbit (io_regs.port (regs_b bd1)) 1 = false /\
  Z.testbit (io_regs.port (regs_b bd1)) 2 = true.
Proof.
  cbn zeta.
  pose proof (proj2 (proj2 (proj2 (display_custom_selects_one_digit (sevseg 8) 1 []
                {| regs_b := io_regs.mk 255 6 0; regs_c := io_regs.mk 0 0 0;
                   regs_d := io_regs.mk 127 128 0 |} ltac:(lia))))) as H.
  split; [exact (H 0 ltac:(lia)) | exact (H 1 ltac:(lia))].
Defined.

End display_more.

(* ================================================================= *)
(** ** The polling loop *)
(* ================================================================= *)

Section main_loop.
Import program.


Lemma program_display_spec disp value s w :
  length (avr_seven_segment_display._digits disp)
  = Z.to_nat (avr_seven_segment_display.num_digits_t disp) ->
  0 < avr_seven_segment_display.num_digits_t disp ->
  let r := display disp value (s, w) in
  r.1 = avr_seven_segment_pins.mk (avr_seven_segment_pins._segs s) 0 /\
  extends_with (3 * Z.of_nat (Z.to_nat (avr_seven_segment_display.num_digits_t disp))) w r.2.
Proof.
  intros Hl Hn. cbn zeta. unfold display. cbn [fst snd].
  rewrite display_decimal_unfold by apply to_uint8_range.
  destruct (refresh_spec (-1) (digit_glyph (to_uint8 value) (-1))
              (avr_seven_segment_display.with_seg s disp) w Hl) as [E X].
  cbn [avr_seven_segment_display.with_seg avr_seven_segment_display.num_digits_t
       avr_seven_segment_display._digits] in E, X.
  destruct (show_digits _ _ _ _) as [d' w']. cbn [fst snd] in *.
  rewrite decide_False in E by lia. subst d'. done.
Qed.

Lemma handle_inputs_keeps m i :
  segment_pins (handle_inputs i m) = segment_pins m /\ out (handle_inputs i m) = out m.
Proof. unfold handle_inputs. by repeat destruct (avr_button.check _ _). Qed.

Lemma handle_outputs_tt m : tt (handle_outputs m) = tt m.
Proof. done. Qed.

Lemma program_display_wired disp value w :
  length (avr_seven_segment_display._digits disp)
  = Z.to_nat (avr_seven_segment_display.num_digits_t disp) ->
  0 < avr_seven_segment_display.num_digits_t disp ->
  exists w',
    display disp value (seven_segment_pins, w) = (seven_segment_pins, w') /\
    extends_with (3 * Z.of_nat (Z.to_nat (avr_seven_segment_display.num_digits_t disp))) w w'.
Proof.
  intros Hl Hn.
  destruct (program_display_spec disp value seven_segment_pins w Hl Hn) as [E X].
  revert E X. generalize (display disp value (seven_segment_pins, w)).
  intros [s' w'] E X. cbn [fst snd] in E, X. exists w'. split; [|exact X].
  rewrite E. reflexivity.
Qed.

Lemma handle_outputs_spec m :
  wired m ->
  let b := bool_decide (table_tennis.serve (tt m) = table_tennis.p1) in
  wired (handle_outputs m) /\
  exists ext,
    out (handle_outputs m)
    = out m ++ [ev_set avr_io_bank_c 0 b; ev_set avr_io_bank_c 1 (negb b)] ++ ext /\
    delay_total ext = 18 /\ in_bounds ext.
Proof.
  intros Hw. cbn zeta. unfold wired, handle_outputs in *. rewrite Hw.
  cbn [segment_pins out set p1_serve_led p2_serve_led].
  generalize (bool_decide (table_tennis.serve (tt m) = table_tennis.p1)). intros b.
  destruct (program_display_wired p1_score_display (table_tennis.get_p1_score (tt m))
              ((out m ++ [ev_set avr_io_bank_c 0 b]) ++ [ev_set avr_io_bank_c 1 (negb b)])
              eq_refl eq_refl) as (w1 & -> & X1).
  destruct (program_display_wired p1_games_won_display
              (table_tennis.get_p1_games_won (tt m)) w1 eq_refl eq_refl) as (w2 & -> & X2).
  destruct (program_display_wired p2_score_display
              (table_tennis.get_p2_score (tt m)) w2 eq_refl eq_refl) as (w3 & -> & X3).
  destruct (program_display_wired p2_games_won_display
              (table_tennis.get_p2_games_won (tt m)) w3 eq_refl eq_refl) as (w4 & -> & X4).
  cbn [fst snd]. split; [done|].
  pose proof (extends_with_trans _ _ _ _ _ X1
                (extends_with_trans _ _ _ _ _ X2
                   (extends_with_trans _ _ _ _ _ X3 X4))) as (ext & -> & D & B).
  exists ext. rewrite <- !app_assoc. split; [done|]. split; [exact D | exact B].
Qed.

Lemma reachable_mode_switch a e :
  table_tennis.reachable e ->
  table_tennis.reachable
    match a with
    | avr_button.pressed => table_tennis.set_game_mode table_tennis.to_11 e
    | avr_button.released => table_tennis.set_game_mode table_tennis.to_21 e
    | avr_button.none => e
    end.
Proof.
  intros He. destruct a; [exact He| |].
  - exact (table_tennis.reachable_exec (table_tennis.call_set_game_mode table_tennis.to_11) e He).
  - exact (table_tennis.reachable_exec (table_tennis.call_set_game_mode table_tennis.to_21) e He).
Qed.

Lemma reachable_first_serve_switch a e :
  table_tennis.reachable e ->
  table_tennis.reachable
    match a with
    | avr_button.pressed => table_tennis.set_first_serve table_tennis.p1 e
    | avr_button.released => table_tennis.set_first_serve table_tennis.p2 e
    | avr_button.none => e
    end.
Proof.
  intros He. destruct a; [exact He| |].
  - exact (table_tennis.reachable_exec (table_tennis.call_set_first_serve table_tennis.p1) e He).
  - exact (table_tennis.reachable_exec (table_tennis.call_set_first_serve table_tennis.p2) e He).
Qed.

Lemma reachable_on_press (c : table_tennis.call) a e :
  table_tennis.reachable e ->
  table_tennis.reachable
    (if decide (a = avr_button.pressed) then table_tennis.exec c e else e).
Proof. intros He. case_decide; [by constructor | exact He]. Qed.

Lemma handle_inputs_reachable i m :
  table_tennis.reachable (tt m) -> table_tennis.reachable (tt (handle_inputs i m)).
Proof.
  intros Hr. unfold handle_inputs.
  destruct (avr_button.check (game_mode_read i) (game_mode_button m)) as [b1 a1].
  destruct (avr_button.check (first_serve_read i) (first_serve_button m)) as [b2 a2].
  destruct (avr_button.check (undo_read i) (undo_button m)) as [b3 a3].
  destruct (avr_button.check (p1_score_read i) (p1_score_button m)) as [b4 a4].
  destruct (avr_button.check (p2_score_read i) (p2_score_button m)) as [b5 a5].
  cbn [tt].
  apply (reachable_on_press table_tennis.call_p2_score).
  apply (reachable_on_press table_tennis.call_p1_score).
  apply (reachable_on_press table_tennis.call_undo).
  apply reachable_first_serve_switch, reachable_mode_switch, Hr.
Qed.

Lemma handle_inputs_buttons i m :
  avr_button.reachable game_mode_switch (game_mode_button m) ->
  avr_button.reachable first_serve_switch (first_serve_button m) ->
  avr_button.reachable undo_switch (undo_button m) ->
  avr_button.reachable p1_score_switch (p1_score_button m) ->
  avr_button.reachable p2_score_switch (p2_score_button m) ->
  avr_button.reachable game_mode_switch (game_mode_button (handle_inputs i m)) /\
  avr_button.reachable first_serve_switch (first_serve_button (handle_inputs i m)) /\
  avr_button.reachable undo_switch (undo_button (handle_inputs i m)) /\
  avr_button.reachable p1_score_switch (p1_score_button (handle_inputs i m)) /\
  avr_button.reachable p2_score_switch (p2_score_button (handle_inputs i m)).
Proof.
  intros H1 H2 H3 H4 H5. unfold handle_inputs.
  pose proof (avr_button.reachable_check _ (game_mode_read i) _ H1) as R1.
  pose proof (avr_button.reachable_check _ (first_serve_read i) _ H2) as R2.
  pose proof (avr_button.reachable_check _ (undo_read i) _ H3) as R3.
  pose proof (avr_button.reachable_check _ (p1_score_read i) _ H4) as R4.
  pose proof (avr_button.reachable_check _ (p2_score_read i) _ H5) as R5.
  destruct (avr_button.check (game_mode_read i) (game_mode_button m)) as [b1 a1].
  destruct (avr_button.check (first_serve_read i) (first_serve_button m)) as [b2 a2].
  destruct (avr_button.check (undo_read i) (undo_button m)) as [b3 a3].
  destruct (avr_button.check (p1_score_read i) (p1_score_button m)) as [b4 a4].
  destruct (avr_button.check (p2_score_read i) (p2_score_button m)) as [b5 a5].
  cbn in *. tauto.
Qed.

Lemma running_init : running init.
Proof. repeat split; constructor. Qed.

Lemma running_loop_body i m : running m -> running (loop_body i m).
Proof.
  intros (Ht & H1 & H2 & H3 & H4 & H5 & Hw). unfold loop_body.
  pose proof (handle_inputs_reachable i m Ht) as Ht'.
  pose proof (handle_inputs_buttons i m H1 H2 H3 H4 H5) as Hb.
  destruct (handle_inputs_keeps m i) as [Es Eo].
  assert (Hw' : wired (handle_inputs i m)) by (unfold wired in *; congruence).
  destruct (handle_outputs_spec _ Hw') as [Hw'' _].
  split; [exact Ht'|]. unfold running, handle_outputs in *. cbn [tt game_mode_button
    first_serve_button undo_button p1_score_button p2_score_button]. tauto.
Qed.

(** X21.  Whatever the switches read, after any number of passes of the
    loop of [main] the engine is in a reachable state, each button is
    in a reachable state of its own pin, and the shared segment pins
    are blank: every property of reachable states holds of the running
    device. *)
Theorem main_loop_keeps_objects_reachable (ins : list inputs) :
  running (loop ins init).
Proof.
  unfold loop. generalize running_init. generalize init.
  induction ins as [|i ins IH]; intros m Hm; [done|].
  cbn [foldl]. apply IH. by apply running_loop_body.
Qed.

(** X22.  One pass of the loop of [main] adds to the trace: the two
    serve indicators driven to opposite levels, player one's being
    high exactly when [serve] is [p1] in the state the pass has
    reached; then events that stay inside the digit arrays and hold
    for 18 ms in total, whatever the inputs and the scores. *)
Theorem main_loop_pass_outputs (i : inputs) (m : t) :
  wired m ->
  let m' := loop_body i m in
  let b := bool_decide (table_tennis.serve (tt m') = table_tennis.p1) in
  wired m' /\
  exists ext,
    out m' = out m ++ [ev_set avr_io_bank_c 0 b; ev_set avr_io_bank_c 1 (negb b)] ++ ext /\
    delay_total ext = 18 /\ in_bounds ext.
Proof.
  intros Hw. cbn zeta. unfold loop_body.
  destruct (handle_inputs_keeps m i) as [Es Eo].
  assert (Hw' : wired (handle_inputs i m)) by (unfold wired in *; congruence).
  destruct (handle_outputs_spec _ Hw') as [Hw'' X]. split; [exact Hw''|].
  rewrite handle_outputs_tt, <- Eo. exact X.
Qed.

Lemma main_loop_pass_outputs_witness :
  let m' := loop_body switches_open init in
  let b := bool_decide (table_tennis.serve (tt m') = table_tennis.p1) in
  wired m' /\
  exists ext,
    out m' = out init ++ [ev_set avr_io_bank_c 0 b; ev_set avr_io_bank_c 1 (negb b)] ++ ext /\
    delay_total ext = 18 /\ in_bounds ext.
Proof. exact (main_loop_pass_outputs switches_open init eq_refl). Defined.

End main_loop.
